(** * Verification of the product-image ingestion code and the tiered
      pricing table of the storefront application.

    The sources are TypeScript:
    - [ProductImageManager] (the Media Manager: [handleFileSelect],
      [handleCropComplete], [setFeaturedImage], [removeImage]);
    - the upload library ([uploadProductImages], [deleteProductImage],
      [deleteProductImages]);
    - [TieredPricingTable] (the Pricing Presenter).

    JavaScript strings used as identifiers, object URLs and file handles
    are modelled as [nat] handles; numbers used as prices are modelled as
    rationals [Q], quantities as [Z]; the savings percentages of the
    pricing table are computed in IEEE double arithmetic ([number]). *)

From Stdlib Require Import List Bool Arith Lia ZArith QArith Qround.
From Stdlib Require Import Sorting.Sorted Sorting.Permutation.
From Stdlib Require Strings.String.
From Stdlib Require Import Qpower.
From Stdlib Require Lqa.
Import ListNotations.

(* ===================================================================== *)
(** * Media Manager, value semantics                                      *)
(* ===================================================================== *)

Module MediaManager.

Local Open Scope nat_scope.

(** [type MediaItem]; [mediaType] is the constant ['image'] and is left
    out. Optional string fields are [option nat]. *)
Record MediaItem := mkMediaItem {
  id : nat;
  url : nat;
  file : option nat;
  isFeatured : bool;
  fileHash : option nat;
  visualFingerprint : option nat;
  blobUrl : option nat
}.

(** The part of the validator's result that [handleFileSelect] reads.
    [hashes], [fingerprints] and [blobUrls] are the [Map]s keyed by file
    name; a file is identified with its name here. *)
Record ValidationResult := mkValidationResult {
  validFiles : list nat;
  invalid : list nat;
  duplicates : list nat;
  hashes : nat -> option nat;
  fingerprints : nat -> option nat;
  blobUrls : nat -> option nat
}.

(** Toast notifications emitted by the component. *)
Inductive Toast :=
| ToastBusy                 (* 'Aguarde o processamento anterior terminar' *)
| ToastLimit                (* 'Limite maximo de N imagens atingido' *)
| ToastInvalid (name : nat)
| ToastDuplicates (names : list nat)
| ToastNoValid
| ToastAdded (count : nat)
| ToastProcessError
| ToastCropped.

(** [fileReferencesRef.current : Map<string, {file, url}>] as an
    association list; [Map.set] on a present key keeps its position. *)
Definition RefMap := list (nat * (nat * nat)).

Fixpoint ref_get (m : RefMap) (k : nat) : option (nat * nat) :=
  match m with
  | [] => None
  | (k', v) :: r => if Nat.eqb k k' then Some v else ref_get r k
  end.

Fixpoint ref_set (m : RefMap) (k : nat) (v : nat * nat) : RefMap :=
  match m with
  | [] => [(k, v)]
  | (k', v') :: r => if Nat.eqb k k' then (k', v) :: r else (k', v') :: ref_set r k v
  end.

Fixpoint ref_delete (m : RefMap) (k : nat) : RefMap :=
  match m with
  | [] => []
  | (k', v') :: r => if Nat.eqb k k' then r else (k', v') :: ref_delete r k
  end.

(** The state the component reads and writes. [images] is the host's
    list (the [images] prop, replaced through [onChange]);
    [processingQueue] is [processingQueueRef.current], [isProcessing] the
    React state of the same name; [revoked] logs the arguments of
    [URL.revokeObjectURL]; [nextUrl] and [nextId] supply fresh results of
    [URL.createObjectURL] and [uuidv4]. *)
Record State := mkState {
  images : list MediaItem;
  fileReferences : RefMap;
  isProcessing : bool;
  processingQueue : bool;
  revoked : list nat;
  nextUrl : nat;
  nextId : nat
}.

Definition set_images (st : State) (l : list MediaItem) : State :=
  mkState l (fileReferences st) (isProcessing st) (processingQueue st)
    (revoked st) (nextUrl st) (nextId st).

Definition set_processing (st : State) (b : bool) : State :=
  mkState (images st) (fileReferences st) b b
    (revoked st) (nextUrl st) (nextId st).

(** [URL.createObjectURL]: a fresh URL. *)
Definition createObjectURL (st : State) : nat * State :=
  (nextUrl st,
   mkState (images st) (fileReferences st) (isProcessing st)
     (processingQueue st) (revoked st) (S (nextUrl st)) (nextId st)).

(** [URL.revokeObjectURL]. *)
Definition revokeObjectURL (u : nat) (st : State) : State :=
  mkState (images st) (fileReferences st) (isProcessing st)
    (processingQueue st) (revoked st ++ [u]) (nextUrl st) (nextId st).

(** [uuidv4()]: a fresh id. *)
Definition uuidv4 (st : State) : nat * State :=
  (nextId st,
   mkState (images st) (fileReferences st) (isProcessing st)
     (processingQueue st) (revoked st) (nextUrl st) (S (nextId st))).

Definition set_refs (st : State) (m : RefMap) : State :=
  mkState (images st) m (isProcessing st) (processingQueue st)
    (revoked st) (nextUrl st) (nextId st).

(** [Array.prototype.slice(0, e)]: a negative end counts from the end. *)
Definition slice0 {A} (l : list A) (e : Z) : list A :=
  if (e <? 0)%Z then firstn (Z.to_nat (Z.of_nat (length l) + e)) l
  else firstn (Z.to_nat e) l.

(** The closure of an addition in flight: the [images] prop it captured
    and [filesToAdd]. *)
Record Pending := mkPending {
  capImages : list MediaItem;
  filesToAdd : list nat
}.

(** What the synchronous part of [handleFileSelect] (up to the [await]
    of the validator) does. *)
Inductive BeginResult :=
| Ignored                                   (* no files: bare return *)
| Rejected (t : Toast)                      (* busy: toast and return *)
| Finished (ts : list Toast) (st : State)   (* returned before the await *)
| InFlight (p : Pending) (st : State).      (* awaiting the validator *)

Definition handleFileSelect_begin (maxImages : nat) (files : list nat)
    (st : State) : BeginResult :=
  match files with
  | [] => Ignored
  | _ =>
    if processingQueue st then Rejected ToastBusy
    else
      let st1 := set_processing st true in
      let remainingSlots := (Z.of_nat maxImages - Z.of_nat (length (images st)))%Z in
      let filesToAdd := slice0 files remainingSlots in
      match filesToAdd with
      | [] => Finished [ToastLimit] (set_processing st1 false)
      | _ => InFlight (mkPending (images st) filesToAdd) st1
      end
  end.

(** The body of [validationResult.validFiles.map((file, index) => ...)]. *)
Fixpoint newImages (capEmpty : bool) (vr : ValidationResult) (index : nat)
    (vfs : list nat) (st : State) : list MediaItem * State :=
  match vfs with
  | [] => ([], st)
  | f :: rest =>
    let (uniqueId, st1) := uuidv4 st in
    let (u, st2) := createObjectURL st1 in
    let h := match hashes vr f with Some h => h | None => 0 end in
    let fp := match fingerprints vr f with Some x => x | None => 0 end in
    let b := match blobUrls vr f with Some x => x | None => 0 end in
    let st3 := set_refs st2 (ref_set (fileReferences st2) uniqueId (f, u)) in
    let item := mkMediaItem uniqueId u (Some f)
                  (capEmpty && Nat.eqb index 0) (Some h) (Some fp) (Some b) in
    let (items, st4) := newImages capEmpty vr (S index) rest st3 in
    (item :: items, st4)
  end.

(** Toasts for the invalid and duplicate files. *)
Definition validation_toasts (vr : ValidationResult) : list Toast :=
  map ToastInvalid (invalid vr)
  ++ match duplicates vr with [] => [] | ds => [ToastDuplicates ds] end.

(** The part of [handleFileSelect] after the [await], including the
    [finally] block. [None] is a validator that threw (the [catch]).
    The list committed through [onChange] is built from the captured
    [images], as in the source. *)
Definition handleFileSelect_end (p : Pending) (vr : option ValidationResult)
    (st : State) : list Toast * State :=
  match vr with
  | None => ([ToastProcessError], set_processing st false)
  | Some vr =>
    let ts := validation_toasts vr in
    match validFiles vr with
    | [] =>
      (ts ++ (match invalid vr, duplicates vr with
              | [], [] => [ToastNoValid] | _, _ => [] end),
       set_processing st false)
    | vfs =>
      let cap := capImages p in
      let (items, st1) := newImages (Nat.eqb (length cap) 0) vr 0 vfs st in
      (ts ++ [ToastAdded (length vfs)],
       set_processing (set_images st1 (cap ++ items)) false)
    end
  end.

(** [handleDrop]: checks the [isProcessing] state before delegating. *)
Definition handleDrop_begin (maxImages : nat) (files : list nat)
    (st : State) : BeginResult :=
  if isProcessing st then Rejected ToastBusy
  else handleFileSelect_begin maxImages files st.

(** An addition whose validator resolves before anything else happens. *)
Definition handleFileSelect (maxImages : nat) (files : list nat)
    (validate : list nat -> option ValidationResult) (st : State)
    : list Toast * State :=
  match handleFileSelect_begin maxImages files st with
  | Ignored => ([], st)
  | Rejected t => ([t], st)
  | Finished ts st' => (ts, st')
  | InFlight p st' => handleFileSelect_end p (validate (filesToAdd p)) st'
  end.

(** [setFeaturedImage]. *)
Definition setFeaturedImage (imageId : nat) (st : State) : State :=
  set_images st
    (map (fun img => mkMediaItem (id img) (url img) (file img)
                       (Nat.eqb (id img) imageId) (fileHash img)
                       (visualFingerprint img) (blobUrl img))
         (images st)).

Definition with_featured (img : MediaItem) (b : bool) : MediaItem :=
  mkMediaItem (id img) (url img) (file img) b (fileHash img)
    (visualFingerprint img) (blobUrl img).

(** [removeImage]. [remainingImages[0].isFeatured = true] is read here
    for its effect on the committed list; its effect on the shared
    object is modelled in [SharedHeap]. The blob-registry call
    [revokeBlobUrl] does not touch the list or the object URLs. *)
Definition removeImage (imageId : nat) (st : State) : State :=
  let imageToRemove := find (fun img => Nat.eqb (id img) imageId) (images st) in
  let remainingImages := filter (fun img => negb (Nat.eqb (id img) imageId)) (images st) in
  let remainingImages :=
    match imageToRemove, remainingImages with
    | Some r, first :: rest =>
      if isFeatured r then with_featured first true :: rest else remainingImages
    | _, _ => remainingImages
    end in
  let st1 :=
    match ref_get (fileReferences st) imageId with
    | Some (_, u) => set_refs (revokeObjectURL u st) (ref_delete (fileReferences st) imageId)
    | None => st
    end in
  set_images st1 remainingImages.

(** The callback of [images.map] in [handleCropComplete]. *)
Fixpoint cropMap (targetId croppedFile : nat) (imgs : list MediaItem)
    (st : State) : list MediaItem * State :=
  match imgs with
  | [] => ([], st)
  | img :: rest =>
    if Nat.eqb (id img) targetId then
      let st1 := match ref_get (fileReferences st) (id img) with
                 | Some (_, u) => revokeObjectURL u st
                 | None => st end in
      let (newUrl, st2) := createObjectURL st1 in
      let st3 := set_refs st2 (ref_set (fileReferences st2) (id img) (croppedFile, newUrl)) in
      let img' := mkMediaItem (id img) newUrl (Some croppedFile) (isFeatured img)
                    (fileHash img) (visualFingerprint img) (blobUrl img) in
      let (r, st4) := cropMap targetId croppedFile rest st3 in
      (img' :: r, st4)
    else
      let (r, st1) := cropMap targetId croppedFile rest st in
      (img :: r, st1)
  end.

(** [handleCropComplete]: [imageToRecrop] is the item chosen for
    re-cropping; [croppedFile] the [File] built from the blob. Closing the
    cropper dialog ([setShowCropper], [setImageToRecrop]) is UI state and
    left out. *)
Definition handleCropComplete (imageToRecrop : option MediaItem)
    (croppedFile : nat) (st : State) : State :=
  match imageToRecrop with
  | None => st
  | Some target =>
    (* the file name [recropped-${uuidv4()}.jpg] draws one uuid *)
    let (_, st0) := uuidv4 st in
    let (updatedImages, st1) := cropMap (id target) croppedFile (images st0) st0 in
    set_images st1 updatedImages
  end.

(** Number of featured items. *)
Definition count_featured (l : list MediaItem) : nat := length (filter isFeatured l).

(** [l1] is [l2] with some elements left out, the rest in order. *)
Inductive subseq {A : Type} : list A -> list A -> Prop :=
| subseq_nil : subseq [] []
| subseq_skip (x : A) (l1 l2 : list A) : subseq l1 l2 -> subseq l1 (x :: l2)
| subseq_take (x : A) (l1 l2 : list A) : subseq l1 l2 -> subseq (x :: l1) (x :: l2).

(** An item with its [url] and [file] replaced, as a re-crop does. *)
Definition recropped (k newUrl croppedFile : nat) (img : MediaItem) : MediaItem :=
  if Nat.eqb (id img) k
  then mkMediaItem (id img) newUrl (Some croppedFile) (isFeatured img)
         (fileHash img) (visualFingerprint img) (blobUrl img)
  else img.

(** The featured-flag invariant with unique ids below the next fresh id. *)
Definition valid_images (l : list MediaItem) (next : nat) : Prop :=
  NoDup (map id l) /\ (forall x, In x (map id l) -> x < next) /\
  count_featured l = match l with [] => 0 | _ => 1 end.

(** Modelled from the spec: the contract of
    [validateFilesWithMultiLayerValidation] ([lib/fileValidation], not
    part of the sources), "a list of accepted files (in input order ...)":
    when it resolves, the accepted files are the input files with the
    rejected and duplicate ones left out. *)
Definition validator_contract (validate : list nat -> option ValidationResult) : Prop :=
  forall fs vr, validate fs = Some vr -> subseq (validFiles vr) fs.

(** The keys and the object URLs held by the reference map. *)
Definition ref_keys (m : RefMap) : list nat := map fst m.

Definition ref_urls (m : RefMap) : list nat := map (fun e => snd (snd e)) m.

(** The cleanup returned by the mount effect
    ([useEffect(() => () => ..., [])]): on unmount, every URL still in
    [fileReferencesRef.current] is revoked, in map order. *)
Definition unmountCleanup (st : State) : State :=
  mkState (images st) (fileReferences st) (isProcessing st) (processingQueue st)
    (revoked st ++ ref_urls (fileReferences st)) (nextUrl st) (nextId st).

(** One event of the mounted component, in any interleaving: the
    synchronous part of an addition (up to the [await], or returning
    before it), the completion of an addition in flight, a removal, a
    featured-image choice, or a completed crop. The list an addition in
    flight captured was the [images] prop when it started, so its ids
    were drawn before the completion. *)
Inductive event : State -> State -> Prop :=
| ev_begin (maxImages : nat) (files : list nat) (st : State) (p : Pending) (st' : State) :
    handleFileSelect_begin maxImages files st = InFlight p st' -> event st st'
| ev_finished (maxImages : nat) (files : list nat) (st : State) (ts : list Toast) (st' : State) :
    handleFileSelect_begin maxImages files st = Finished ts st' -> event st st'
| ev_end (p : Pending) (vr : option ValidationResult) (st : State) :
    Forall (fun img => id img < nextId st) (capImages p) ->
    event st (snd (handleFileSelect_end p vr st))
| ev_remove (imageId : nat) (st : State) : event st (removeImage imageId st)
| ev_featured (imageId : nat) (st : State) : event st (setFeaturedImage imageId st)
| ev_crop (target : option MediaItem) (croppedFile : nat) (st : State) :
    event st (handleCropComplete target croppedFile st).

(** Object-URL bookkeeping from the counter value [u0]: the map's keys
    are distinct and already drawn, and the URLs created since [u0] are
    the revoked ones and the ones the map holds, each exactly once. *)
Definition url_accounting (u0 : nat) (st : State) : Prop :=
  NoDup (ref_keys (fileReferences st)) /\
  Forall (fun k => k < nextId st) (ref_keys (fileReferences st)) /\
  u0 <= nextUrl st /\
  Permutation (revoked st ++ ref_urls (fileReferences st)) (seq u0 (nextUrl st - u0)).

(** A run of events from one state to another. *)
Inductive run : State -> State -> Prop :=
| run_done (st : State) : run st st
| run_step (st1 st2 st3 : State) : event st1 st2 -> run st2 st3 -> run st1 st3.

End MediaManager.

(* ===================================================================== *)
(** * Media Manager, object identity                                      *)
(* ===================================================================== *)

(** JavaScript objects are shared by reference: [images.filter] returns a
    new array holding the same item objects, so the assignment
    [remainingImages[0].isFeatured = true] in [removeImage] writes into an
    object that every other holder of the old array also sees, including
    the [images] captured by an addition still awaiting its validator. This
    module models the item objects in a heap indexed by location; the
    host's list is a list of locations. *)
Module SharedHeap.

Import MediaManager.
Local Open Scope nat_scope.

Record HState := mkHState {
  heap : list MediaItem;
  himages : list nat;
  hisProcessing : bool;
  hprocessingQueue : bool;
  hnextUrl : nat;
  hnextId : nat
}.

Definition dummy : MediaItem := mkMediaItem 0 0 None false None None None.

Definition deref (st : HState) (l : nat) : MediaItem := nth l (heap st) dummy.

(** The list of item objects the host sees. *)
Definition view (st : HState) : list MediaItem := map (deref st) (himages st).

Fixpoint upd {A} (l : list A) (n : nat) (x : A) : list A :=
  match l, n with
  | [], _ => []
  | _ :: r, 0 => x :: r
  | y :: r, S n' => y :: upd r n' x
  end.

(** Allocation of a fresh object. *)
Definition alloc (obj : MediaItem) (st : HState) : nat * HState :=
  (length (heap st),
   mkHState (heap st ++ [obj]) (himages st) (hisProcessing st)
     (hprocessingQueue st) (hnextUrl st) (hnextId st)).

(** Assignment to a field of an existing object. *)
Definition store (l : nat) (obj : MediaItem) (st : HState) : HState :=
  mkHState (upd (heap st) l obj) (himages st) (hisProcessing st)
    (hprocessingQueue st) (hnextUrl st) (hnextId st).

Definition hset_images (st : HState) (ls : list nat) : HState :=
  mkHState (heap st) ls (hisProcessing st) (hprocessingQueue st)
    (hnextUrl st) (hnextId st).

Definition hset_processing (st : HState) (b : bool) : HState :=
  mkHState (heap st) (himages st) b b (hnextUrl st) (hnextId st).

Definition hfresh (st : HState) : nat * nat * HState :=
  (hnextId st, hnextUrl st,
   mkHState (heap st) (himages st) (hisProcessing st) (hprocessingQueue st)
     (S (hnextUrl st)) (S (hnextId st))).

(** [setFeaturedImage]: every element is a fresh object ([{...img}]). *)
Fixpoint hsetFeatured_map (imageId : nat) (ls : list nat) (st : HState)
    : list nat * HState :=
  match ls with
  | [] => ([], st)
  | l :: r =>
    let img := deref st l in
    let (l', st1) := alloc (with_featured img (Nat.eqb (id img) imageId)) st in
    let (r', st2) := hsetFeatured_map imageId r st1 in
    (l' :: r', st2)
  end.

Definition setFeaturedImage (imageId : nat) (st : HState) : HState :=
  let (ls, st1) := hsetFeatured_map imageId (himages st) st in
  hset_images st1 ls.

(** [removeImage]: the promotion writes into the shared object. *)
Definition removeImage (imageId : nat) (st : HState) : HState :=
  let imageToRemove := find (fun l => Nat.eqb (id (deref st l)) imageId) (himages st) in
  let remainingImages := filter (fun l => negb (Nat.eqb (id (deref st l)) imageId)) (himages st) in
  let st1 :=
    match imageToRemove, remainingImages with
    | Some r, first :: _ =>
      if isFeatured (deref st r)
      then store first (with_featured (deref st first) true) st
      else st
    | _, _ => st
    end in
  hset_images st1 remainingImages.

Record HPending := mkHPending {
  hcapImages : list nat;
  hfilesToAdd : list nat
}.

Inductive HBeginResult :=
| HIgnored
| HRejected (t : Toast)
| HFinished (ts : list Toast) (st : HState)
| HInFlight (p : HPending) (st : HState).

(** Synchronous part of [handleFileSelect]; it captures the array
    [images], that is the list of object locations. *)
Definition handleFileSelect_begin (maxImages : nat) (files : list nat)
    (st : HState) : HBeginResult :=
  match files with
  | [] => HIgnored
  | _ =>
    if hprocessingQueue st then HRejected ToastBusy
    else
      let st1 := hset_processing st true in
      let remainingSlots := (Z.of_nat maxImages - Z.of_nat (length (himages st)))%Z in
      let filesToAdd := slice0 files remainingSlots in
      match filesToAdd with
      | [] => HFinished [ToastLimit] (hset_processing st1 false)
      | _ => HInFlight (mkHPending (himages st) filesToAdd) st1
      end
  end.

Fixpoint hnewImages (capEmpty : bool) (vr : ValidationResult) (index : nat)
    (vfs : list nat) (st : HState) : list nat * HState :=
  match vfs with
  | [] => ([], st)
  | f :: rest =>
    let '(uniqueId, u, st1) := hfresh st in
    let h := match hashes vr f with Some h => h | None => 0 end in
    let fp := match fingerprints vr f with Some x => x | None => 0 end in
    let b := match blobUrls vr f with Some x => x | None => 0 end in
    let (l, st2) := alloc (mkMediaItem uniqueId u (Some f)
                             (capEmpty && Nat.eqb index 0) (Some h) (Some fp) (Some b)) st1 in
    let (ls, st3) := hnewImages capEmpty vr (S index) rest st2 in
    (l :: ls, st3)
  end.

(** The part after the [await]: commits [[...images, ...newImages]] built
    from the captured array. *)
Definition handleFileSelect_end (p : HPending) (vr : option ValidationResult)
    (st : HState) : HState :=
  match vr with
  | None => hset_processing st false
  | Some vr =>
    match validFiles vr with
    | [] => hset_processing st false
    | vfs =>
      let cap := hcapImages p in
      let (ls, st1) := hnewImages (Nat.eqb (length cap) 0) vr 0 vfs st in
      hset_processing (hset_images st1 (cap ++ ls)) false
    end
  end.

End SharedHeap.

(* ===================================================================== *)
(** * Upload pipeline and deletion                                        *)
(* ===================================================================== *)

(** Outcome of code that may throw: [Ok] or a raised error. *)
Inductive Exc (A : Type) := Ok (a : A) | Throw.
Arguments Ok {A} a.
Arguments Throw {A}.

Module UploadPipeline.

Local Open Scope nat_scope.

(** [interface UploadedImage]; [media_type] is the constant ['image'].
    The id [new-${Date.now()}-${i}] is the pair [(now, i)]. *)
Record UploadedImage := mkUploadedImage {
  id : nat * nat;
  url : nat;
  is_featured : bool;
  display_order : nat
}.

(** What happens to one file: [compressImage] rejects, the storage call
    resolves with an [error], the storage call rejects, or the upload
    succeeds and [getPublicUrl] of the generated path is [publicUrl]. *)
Inductive FileOutcome :=
| CompressFails
| UploadReturnsError (message : nat)
| UploadThrows
| UploadSucceeds (publicUrl : nat).

(** Reports to the user and the [onProgress] callback. *)
Inductive Report :=
| ToastUploadError (n : nat) (message : nat)  (* 'Erro ao fazer upload da imagem n' *)
| ToastProcessError (n : nat)                 (* 'Erro ao processar imagem n' *)
| Progress (uploaded total : nat).

(** The body of the inner [try] for the file at index [i]:
    [Ok None] is the [continue] after an upload error. *)
Definition processFile (now total i : nat) (o : FileOutcome)
    : list Report * Exc (option UploadedImage) :=
  match o with
  | CompressFails => ([], Throw)
  | UploadThrows => ([], Throw)
  | UploadReturnsError m => ([ToastUploadError (i + 1) m], Ok None)
  | UploadSucceeds publicUrl =>
    ([Progress (i + 1) total],
     Ok (Some (mkUploadedImage (now, i) publicUrl (Nat.eqb i 0) i)))
  end.

(** [for (let i = 0; i < files.length; i++) { try ... catch ... }]:
    returns the reports and [uploadedImages] in push order. *)
Fixpoint uploadLoop (now total i : nat) (os : list FileOutcome)
    : list Report * list UploadedImage :=
  match os with
  | [] => ([], [])
  | o :: rest =>
    let (rs, r) := processFile now total i o in
    let (rs', imgs) := uploadLoop now total (S i) rest in
    match r with
    | Throw => (rs ++ [ToastProcessError (i + 1)] ++ rs', imgs)
    | Ok None => (rs ++ rs', imgs)
    | Ok (Some img) => (rs ++ rs', img :: imgs)
    end
  end.

(** [uploadProductImages]: one [FileOutcome] per input file. The outer
    [catch] rethrows, but the loop body catches everything. *)
Definition uploadProductImages (now : nat) (files : list FileOutcome)
    : list Report * Exc (list UploadedImage) :=
  match files with
  | [] => ([], Ok [])
  | _ => let (rs, imgs) := uploadLoop now (length files) 0 files in (rs, Ok imgs)
  end.

(** Whether a file's upload succeeds. *)
Definition isSuccess (o : FileOutcome) : bool :=
  match o with UploadSucceeds _ => true | _ => false end.

(** The input positions (from [i]) of the files that succeed. *)
Fixpoint successIndices (i : nat) (os : list FileOutcome) : list nat :=
  match os with
  | [] => []
  | UploadSucceeds _ :: r => i :: successIndices (S i) r
  | _ :: r => successIndices (S i) r
  end.

(** The public urls of the files that succeed, in input order. *)
Fixpoint successUrls (os : list FileOutcome) : list nat :=
  match os with
  | [] => []
  | UploadSucceeds u :: r => u :: successUrls r
  | _ :: r => successUrls r
  end.

(** The one report the loop gives for the file at index [i]: the
    [onProgress] call after an upload, or the error toast of the file. *)
Definition fileReport (total i : nat) (o : FileOutcome) : Report :=
  match o with
  | CompressFails | UploadThrows => ToastProcessError (i + 1)
  | UploadReturnsError m => ToastUploadError (i + 1) m
  | UploadSucceeds _ => Progress (i + 1) total
  end.

Fixpoint fileReports (total i : nat) (os : list FileOutcome) : list Report :=
  match os with
  | [] => []
  | o :: r => fileReport total i o :: fileReports total (S i) r
  end.

End UploadPipeline.

Module Deletion.

Local Open Scope nat_scope.

(** Observable effects, in order. *)
Inductive Effect :=
| SelectUrls (ids : list nat)   (* [.from('product_images').select('url').in('id', ids)] *)
| StorageRemove (path : nat)    (* [supabase.storage.from('public').remove([path])] *)
| LogError                      (* [console.error(...)] *)
| DeleteRows (ids : list nat).  (* [.from('product_images').delete().in('id', ids)] *)

(** Modelled from the spec: [storageFromSupabase] (in [lib/db], not part
    of the sources) is the retry wrapper that "applies [the operation]
    with backoff on transient failure, surfaces the final error
    otherwise". [succeeded] says whether some attempt of the removal
    succeeded; otherwise the final error is raised to the caller. *)
Definition storageFromSupabase (succeeded : bool) : Exc unit :=
  if succeeded then Ok tt else Throw.

(** [deleteProductImage]. [parseUrl imageUrl] is [None] when
    [new URL(imageUrl)] throws, [Some None] when the pathname has no
    ['/public/'] segment, [Some (Some path)] otherwise; [removeOk path]
    says whether the remote removal succeeded. *)
Definition deleteProductImage (parseUrl : nat -> option (option nat))
    (removeOk : nat -> bool) (imageUrl : nat) : list Effect * Exc unit :=
  let (effs, r) :=
    match parseUrl imageUrl with
    | None => ([], Throw)
    | Some None => ([], Ok tt)
    | Some (Some path) => ([StorageRemove path], storageFromSupabase (removeOk path))
    end in
  match r with
  | Throw => (effs ++ [LogError], Ok tt)
  | Ok _ => (effs, Ok tt)
  end.

(** [imageRecords.map(record => deleteProductImage(record.url).catch(...))].
    [Promise.all] waits for all of them before the rows are deleted; the
    removals are listed one after the other. *)
Fixpoint deleteAll (parseUrl : nat -> option (option nat))
    (removeOk : nat -> bool) (urls : list nat) : list Effect :=
  match urls with
  | [] => []
  | u :: rest =>
    let (effs, r) := deleteProductImage parseUrl removeOk u in
    let effs := match r with Throw => effs ++ [LogError] | Ok _ => effs end in
    effs ++ deleteAll parseUrl removeOk rest
  end.

(** [deleteProductImages]. [selectResult] is [None] when the select
    fails, else the urls of the selected rows; [deleteOk] says whether
    the row deletion succeeded. *)
Definition deleteProductImages (parseUrl : nat -> option (option nat))
    (removeOk : nat -> bool) (selectResult : option (list nat))
    (deleteOk : bool) (imageIds : list nat) : list Effect * Exc unit :=
  let (effs, r) :=
    match selectResult with
    | None => ([SelectUrls imageIds], Throw)
    | Some urls =>
      let effs := SelectUrls imageIds :: deleteAll parseUrl removeOk urls
                  ++ [DeleteRows imageIds] in
      (effs, if deleteOk then Ok tt else Throw)
    end in
  match r with
  | Throw => (effs ++ [LogError], Ok tt)
  | Ok _ => (effs, Ok tt)
  end.

End Deletion.

(* ===================================================================== *)
(** * Pricing presenter ([TieredPricingTable])                            *)
(* ===================================================================== *)

Module TieredPricing.

Local Open Scope Q_scope.

(** [PriceTier]; [discounted_unit_price] is optional. *)
Record PriceTier := mkPriceTier {
  id : nat;
  min_quantity : Z;
  unit_price : Q;
  discounted_unit_price : option Q
}.

(** JavaScript truthiness of a number: [0] is falsy. *)
Definition truthy (x : Q) : bool := negb (Qeq_bool x 0).

(** [x < y] on numbers. *)
Definition Qlt_bool (x y : Q) : bool := negb (Qle_bool y x).

(** [a || b] on numbers, [a] possibly [undefined]. *)
Definition js_or (a : option Q) (b : Q) : Q :=
  match a with Some x => if truthy x then x else b | None => b end.

(** [Math.round]: nearest integer, halves toward +infinity. *)
Definition js_round (x : Q) : Z := Qfloor (x + (1#2)).

(** [[...tiers].sort((a, b) => a.min_quantity - b.min_quantity)]: the
    sort is stable, so the result is the stable insertion sort by
    [min_quantity]. *)
Fixpoint insert_tier (t : PriceTier) (l : list PriceTier) : list PriceTier :=
  match l with
  | [] => [t]
  | h :: r => if (min_quantity t <=? min_quantity h)%Z then t :: l
              else h :: insert_tier t r
  end.

Fixpoint sortTiers (l : list PriceTier) : list PriceTier :=
  match l with
  | [] => []
  | t :: r => insert_tier t (sortTiers r)
  end.

(** ** JavaScript numbers

    [number] is an IEEE 754 binary64 value: a finite double (its exact
    value as a rational), an infinity, or NaN; the sign of zero is not
    kept. [toDouble] rounds a rational to the nearest double, ties to
    even, and to an infinity from [2^1024] on. A price given as a [Q] is
    the value of the JavaScript number: [toDouble] leaves a double
    unchanged and turns a decimal literal such as [17#20] into the double
    that [0.85] denotes in the source. *)
Inductive number := Finite (x : Q) | Infinity (negative : bool) | NaN.

Definition pow2 (e : Z) : Q := Qpower (2#1) e.

(** [exponent x] is the [e] with [2^e <= x < 2^(e+1)], for [0 < x]. *)
Definition exponent (x : Q) : Z :=
  let e := (Z.log2 (Qnum x) - Z.log2 (Zpos (Qden x)))%Z in
  if Qlt_bool x (pow2 e) then (e - 1)%Z else e.

(** The weight of the last bit of the 53-bit significand, subnormals
    included. *)
Definition quantum (x : Q) : Z := Z.max (exponent x - 52) (-1074).

(** Nearest integer, ties to even. *)
Definition round_half_even (y : Q) : Z :=
  let f := Qfloor y in
  let r := y - inject_Z f in
  if Qlt_bool r (1#2) then f
  else if Qlt_bool (1#2) r then (f + 1)%Z
  else if Z.even f then f else (f + 1)%Z.

Definition round_pos (x : Q) : number :=
  let k := quantum x in
  let v := inject_Z (round_half_even (x / pow2 k)) * pow2 k in
  if Qle_bool (pow2 1024) v then Infinity false else Finite v.

Definition toDouble (x : Q) : number :=
  if Qlt_bool 0 x then round_pos x
  else if Qlt_bool x 0 then
    match round_pos (- x) with
    | Finite v => Finite (- v) | Infinity _ => Infinity true | NaN => NaN
    end
  else Finite 0.

(** [a + b]. *)
Definition fadd (a b : number) : number :=
  match a, b with
  | Finite x, Finite y => toDouble (x + y)
  | NaN, _ | _, NaN => NaN
  | Infinity s, Infinity t => if Bool.eqb s t then Infinity s else NaN
  | Infinity s, Finite _ | Finite _, Infinity s => Infinity s
  end.

(** [- a]. *)
Definition fneg (a : number) : number :=
  match a with
  | Finite x => Finite (- x) | Infinity s => Infinity (negb s) | NaN => NaN
  end.

(** [a - b]. *)
Definition fsub (a b : number) : number := fadd a (fneg b).

Definition negative (x : Q) : bool := Qlt_bool x 0.

(** [a * b]. *)
Definition fmul (a b : number) : number :=
  match a, b with
  | Finite x, Finite y => toDouble (x * y)
  | NaN, _ | _, NaN => NaN
  | Infinity s, Infinity t => Infinity (xorb s t)
  | Infinity s, Finite y | Finite y, Infinity s =>
    if Qeq_bool y 0 then NaN else Infinity (xorb s (negative y))
  end.

(** [a / b]. *)
Definition fdiv (a b : number) : number :=
  match a, b with
  | Finite x, Finite y =>
    if Qeq_bool y 0 then (if Qeq_bool x 0 then NaN else Infinity (negative x))
    else toDouble (x / y)
  | NaN, _ | _, NaN => NaN
  | Infinity _, Infinity _ => NaN
  | Infinity s, Finite y => Infinity (xorb s (negative y))
  | Finite _, Infinity _ => Finite 0
  end.

(** [Math.round(a)]: a double is rounded exactly, halves toward
    +infinity; infinities and NaN are returned unchanged. *)
Definition math_round (a : number) : number :=
  match a with Finite x => Finite (inject_Z (js_round x)) | _ => a end.

(** [a <= 0]; false for NaN. *)
Definition le_zero (a : number) : bool :=
  match a with Finite x => Qle_bool x 0 | Infinity s => s | NaN => false end.

(** [calculateSavingsPercentage], on JavaScript numbers. *)
Definition calculateSavingsPercentage (originalPrice newPrice : Q) : number :=
  let o := toDouble originalPrice in
  let n := toDouble newPrice in
  if le_zero o then Finite 0
  else math_round (fmul (fdiv (fsub o n) o) (Finite 100)).

(** The largest finite double, [(2^53 - 1) * 2^971]. *)
Definition max_double : Q := inject_Z (2 ^ 53 - 1) * pow2 971.

(** [F] is a non-negative finite double: [M * 2^K] with a 53-bit [M]. *)
Definition dbl (F : Q) : Prop :=
  exists M K, (0 <= M < 2 ^ 53)%Z /\ (-1074 <= K)%Z /\ F == inject_Z M * pow2 K.

(** One row of [sortedTiers.map(...)]: the values the callback computes.
    The two percentages are JavaScript numbers, as [calculateSavingsPercentage]
    returns them; the totals and the savings are kept as the exact products
    and difference of the prices. *)
Record TierRow := mkTierRow {
  row_min_quantity : Z;
  effectivePrice : Q;
  totalAtQty : Q;
  baseTotal : Q;
  savings : Q;
  savingsPercentage : number;
  discountPercentage : number;
  hasDiscount : bool
}.

(** [discountedPrice && discountedPrice > 0 && discountedPrice < unitPrice]
    with [discountedPrice = tier.discounted_unit_price || null]. *)
Definition activeDiscount (tier : PriceTier) : option Q :=
  match discounted_unit_price tier with
  | Some d => if truthy d && Qlt_bool 0 d && Qlt_bool d (unit_price tier)
              then Some d else None
  | None => None
  end.

Definition tierRow (baseUnitPrice : Q) (tier : PriceTier) : TierRow :=
  let unitPrice := unit_price tier in
  let effective := match activeDiscount tier with Some d => d | None => unitPrice end in
  let total := effective * inject_Z (min_quantity tier) in
  let bTotal := baseUnitPrice * inject_Z (min_quantity tier) in
  mkTierRow (min_quantity tier) effective total bTotal (bTotal - total)
    (calculateSavingsPercentage baseUnitPrice effective)
    (match activeDiscount tier with
     | Some d => calculateSavingsPercentage unitPrice d | None => Finite 0 end)
    (match activeDiscount tier with Some _ => true | None => false end).

(** [TieredPricingTable]: [None] is the [return null] for no tiers. *)
Definition tieredPricingTable (tiers : list PriceTier) (basePrice : Q)
    (baseDiscountedPrice : option Q) : option (list TierRow) :=
  match tiers with
  | [] => None
  | _ =>
    let sortedTiers := sortTiers tiers in
    let baseUnitPrice := js_or baseDiscountedPrice basePrice in
    Some (map (tierRow baseUnitPrice) sortedTiers)
  end.

(** The savings percentage as the spec words it,
    [round((base - effective) / base * 100)], computed exactly. *)
Definition spec_savingsPercentage (base effective : Q) : Z :=
  js_round ((base - effective) / base * 100).

(** The same formula with each of [-], [/], [*] and [round] carried out
    on JavaScript numbers, as [Math.round] of a double expression. *)
Definition double_savingsPercentage (base effective : Q) : number :=
  math_round (fmul (fdiv (fsub (toDouble base) (toDouble effective)) (toDouble base))
                   (Finite 100)).

(** Tiers ordered by [min_quantity]. *)
Definition tier_le (a b : PriceTier) : Prop := (min_quantity a <= min_quantity b)%Z.

End TieredPricing.

(* ===================================================================== *)
(** * Image compression and persistence of image records                 *)
(* ===================================================================== *)

Module ImageCompression.

Local Open Scope Z_scope.

(** The size computation in [compressImage] ([img.onload]): [width] and
    [height] are the decoded image's. When the longer side exceeds
    [maxWidth] (1200 by default) it becomes [maxWidth] and the other side
    is scaled in proportion and rounded with [Math.round]; a square image
    takes the [else] branch. The result is the canvas size. *)
Definition compressDimensions (maxWidth width height : Z) : Z * Z :=
  if height <? width then
    if maxWidth <? width
    then (maxWidth,
          TieredPricing.js_round (inject_Z height * inject_Z maxWidth / inject_Z width))
    else (width, height)
  else
    if maxWidth <? height
    then (TieredPricing.js_round (inject_Z width * inject_Z maxWidth / inject_Z height),
          maxWidth)
    else (width, height).

End ImageCompression.

Module Persistence.

Import String.StringSyntax.
Local Open Scope nat_scope.

(** Modelled from the spec: [withRetry] ([lib/db], not part of the
    sources) is the retry wrapper that "applies [the operation] with
    backoff on transient failure, surfaces the final error otherwise".
    [succeeded] says whether some attempt succeeded. *)
Definition withRetry (succeeded : bool) : Exc unit :=
  if succeeded then Ok tt else Throw.

(** A row of [imagesToInsert]; [media_type] is the constant ['image']. *)
Record ImageRow := mkImageRow {
  product_id : nat;
  row_url : nat;
  row_is_featured : bool;
  row_display_order : nat
}.

(** Observable effects, in order. *)
Inductive Effect :=
| InsertRows (rows : list ImageRow)      (* [.from('product_images').insert(rows)] *)
| UpdateRow (id : String.string) (is_featured : bool) (display_order : nat)
                                         (* [.update({is_featured, display_order}).eq('id', id)] *)
| LogError.                              (* [console.error(...)] *)

(** [uploadedImages.map(img => ({ product_id: productId, ... }))]. *)
Definition imagesToInsert (productId : nat) (uploadedImages : list UploadPipeline.UploadedImage)
    : list ImageRow :=
  map (fun img => mkImageRow productId (UploadPipeline.url img)
                    (UploadPipeline.is_featured img) (UploadPipeline.display_order img))
      uploadedImages.

(** [saveProductImages]: [insertOk] says whether the insert succeeded
    (within the retries). The [catch] logs and rethrows. *)
Definition saveProductImages (insertOk : bool) (productId : nat)
    (uploadedImages : list UploadPipeline.UploadedImage) : list Effect * Exc unit :=
  match uploadedImages with
  | [] => ([], Ok tt)
  | _ =>
    let rows := imagesToInsert productId uploadedImages in
    match withRetry insertOk with
    | Ok _ => ([InsertRows rows], Ok tt)
    | Throw => ([InsertRows rows; LogError], Throw)
    end
  end.

(** [UploadedImage] as [updateImageOrder] and [fetchProductImages] handle
    it: the id is a string, a database key, or [new-...] for an image
    that has not been saved. *)
Record StoredImage := mkStoredImage {
  id : String.string;
  url : nat;
  is_featured : bool;
  display_order : nat
}.

(** The [for] loop of [updateImageOrder] from index [i]; [updateOk i]
    says whether the update of the image at index [i] succeeded. A
    failed update throws out of the loop. *)
Fixpoint updateLoop (updateOk : nat -> bool) (i : nat) (images : list StoredImage)
    : list Effect * Exc unit :=
  match images with
  | [] => ([], Ok tt)
  | image :: rest =>
    if String.prefix "new-" (id image) then updateLoop updateOk (S i) rest
    else
      let call := UpdateRow (id image) (Nat.eqb i 0) i in
      if updateOk i then
        let (effs, r) := updateLoop updateOk (S i) rest in (call :: effs, r)
      else ([call], Throw)
  end.

(** [updateImageOrder]: the [catch] around the loop logs the error. *)
Definition updateImageOrder (updateOk : nat -> bool) (images : list StoredImage)
    : list Effect * Exc unit :=
  let (effs, r) := updateLoop updateOk 0 images in
  match r with
  | Throw => (effs ++ [LogError], Ok tt)
  | Ok _ => (effs, Ok tt)
  end.

(** The updates due from index [i] on: one per saved image, with its
    index, whose [display_order] is the index and whose [is_featured]
    holds for index 0. *)
Definition plannedUpdates (i : nat) (images : list StoredImage) : list (nat * Effect) :=
  map (fun p => (fst p, UpdateRow (id (snd p)) (Nat.eqb (fst p) 0) (fst p)))
      (filter (fun p => negb (String.prefix "new-" (id (snd p))))
              (combine (seq i (length images)) images)).

(** A row as [select('id, url, is_featured, media_type, display_order')]
    returns it; the nullable columns are options. *)
Record SelectedRow := mkSelectedRow {
  sel_id : String.string;
  sel_url : nat;
  sel_is_featured : option bool;
  sel_display_order : option nat
}.

(** [fetchProductImages]: [result] is [None] when the query fails (the
    [catch] returns [[]]), else the returned rows. *)
Definition fetchProductImages (result : option (list SelectedRow)) : list StoredImage :=
  match result with
  | None => []
  | Some data =>
    map (fun img => mkStoredImage (sel_id img) (sel_url img)
                      (match sel_is_featured img with Some b => b | None => false end)
                      (match sel_display_order img with Some n => n | None => 0 end))
        data
  end.

(** The [product_images] table of the persistence collaborator. *)
Record TableRow := mkTableRow {
  t_id : String.string;
  t_product_id : nat;
  t_url : nat;
  t_is_featured : option bool;
  t_display_order : option nat
}.

(** [.insert(rows)]: the rows are appended, with the ids the database
    draws ([newId] of the row's position in the table). *)
Definition insertRows (newId : nat -> String.string) (table : list TableRow)
    (rows : list ImageRow) : list TableRow :=
  table ++ map (fun p => mkTableRow (newId (fst p)) (product_id (snd p)) (row_url (snd p))
                           (Some (row_is_featured (snd p))) (Some (row_display_order (snd p))))
               (combine (seq (length table) (length rows)) rows).

(** The writes among the effects, applied to the table. *)
Fixpoint applyEffects (newId : nat -> String.string) (table : list TableRow)
    (effs : list Effect) : list TableRow :=
  match effs with
  | [] => table
  | InsertRows rows :: rest => applyEffects newId (insertRows newId table rows) rest
  | _ :: rest => applyEffects newId table rest
  end.

(** [order('display_order', { ascending: true })]: ascending, nulls last;
    a stable insertion sort. *)
Definition order_le (a b : option nat) : bool :=
  match a, b with
  | _, None => true
  | None, Some _ => false
  | Some x, Some y => Nat.leb x y
  end.

Fixpoint insert_row (r : TableRow) (l : list TableRow) : list TableRow :=
  match l with
  | [] => [r]
  | h :: t => if order_le (t_display_order r) (t_display_order h) then r :: l
              else h :: insert_row r t
  end.

Fixpoint sortByOrder (l : list TableRow) : list TableRow :=
  match l with
  | [] => []
  | r :: t => insert_row r (sortByOrder t)
  end.

(** The query of [fetchProductImages]: the product's rows, ordered. *)
Definition selectImages (table : list TableRow) (productId : nat) : list SelectedRow :=
  map (fun r => mkSelectedRow (t_id r) (t_url r) (t_is_featured r) (t_display_order r))
      (sortByOrder (filter (fun r => Nat.eqb (t_product_id r) productId) table)).

End Persistence.

(* ===================================================================== *)
(** * Pricing presenter: proofs                                           *)
(* ===================================================================== *)

(* ===================================================================== *)
(** * Rounding to doubles                                                 *)
(* ===================================================================== *)

Module DoubleProofs.

Import TieredPricing.
Local Open Scope Q_scope.

Lemma Qlt_bool_true (x y : Q) : Qlt_bool x y = true <-> x < y.
Proof.
  unfold Qlt_bool. rewrite negb_true_iff. split; intros H.
  - apply Qnot_le_lt. intros Hle. apply Qle_bool_iff in Hle. congruence.
  - destruct (Qle_bool y x) eqn:E; [|reflexivity].
    apply Qle_bool_iff in E. exfalso. apply (Qlt_not_le _ _ H E).
Qed.

Lemma Qlt_bool_false (x y : Q) : Qlt_bool x y = false <-> y <= x.
Proof.
  unfold Qlt_bool. rewrite negb_false_iff. apply Qle_bool_iff.
Qed.

Lemma two_nz : ~ (2#1) == 0.
Proof. discriminate. Qed.

Lemma pow2_pos (k : Z) : 0 < pow2 k.
Proof. apply Qpower_0_lt. reflexivity. Qed.

Lemma pow2_plus (a b : Z) : pow2 (a + b) == pow2 a * pow2 b.
Proof. apply Qpower_plus, two_nz. Qed.

Lemma pow2_Z (n : Z) : (0 <= n)%Z -> pow2 n == inject_Z (2 ^ n).
Proof. intros H. unfold pow2. rewrite Zpower_Qpower by exact H. reflexivity. Qed.

Lemma pow2_le (a b : Z) : (a <= b)%Z -> pow2 a <= pow2 b.
Proof. intros H. apply Qpower_le_compat_l; [exact H|discriminate]. Qed.

Lemma pow2_lt (a b : Z) : (a < b)%Z -> pow2 a < pow2 b.
Proof. intros H. apply Qpower_lt_compat_l; [exact H|reflexivity]. Qed.

Lemma pow2_lt_inv (a b : Z) : pow2 a < pow2 b -> (a < b)%Z.
Proof. intros H. apply (Qpower_lt_compat_l_inv (2#1)); [exact H|reflexivity]. Qed.

Lemma pow2_le_inv (a b : Z) : pow2 a <= pow2 b -> (a <= b)%Z.
Proof. intros H. apply (Qpower_le_compat_l_inv (2#1)); [exact H|reflexivity]. Qed.

Lemma exponent_spec (x : Q) : 0 < x -> pow2 (exponent x) <= x /\ x < pow2 (exponent x + 1).
Proof.
  destruct x as [p q]. intros Hx.
  assert (Hp : (0 < p)%Z) by (unfold Qlt in Hx; simpl in Hx; lia).
  unfold exponent. cbn [Qnum Qden].
  set (a := Z.log2 p). set (b := Z.log2 (Zpos q)).
  destruct (Z.log2_spec p Hp) as [Pa Pb]. destruct (Z.log2_spec (Zpos q) ltac:(lia)) as [Qa Qb].
  fold a in Pa, Pb. fold b in Qa, Qb.
  assert (Ha : (0 <= a)%Z) by apply Z.log2_nonneg.
  assert (Hb : (0 <= b)%Z) by apply Z.log2_nonneg.
  assert (A : pow2 (a - b - 1) <= p # q).
  { rewrite Qmake_Qdiv. apply Qle_shift_div_l; [unfold Qlt; simpl; lia|].
    apply (Qle_trans _ (pow2 (a - b - 1) * pow2 (b + 1))).
    - apply Qmult_le_l; [apply pow2_pos|]. rewrite pow2_Z by lia.
      rewrite <- Zle_Qle. unfold Z.succ in Qb. lia.
    - rewrite <- pow2_plus. replace (a - b - 1 + (b + 1))%Z with a by lia.
      rewrite pow2_Z by lia. rewrite <- Zle_Qle. exact Pa. }
  assert (B : p # q < pow2 (a - b + 1)).
  { rewrite Qmake_Qdiv. apply Qlt_shift_div_r; [unfold Qlt; simpl; lia|].
    apply (Qlt_le_trans _ (pow2 (a - b + 1) * pow2 b)).
    - rewrite <- pow2_plus. replace (a - b + 1 + b)%Z with (Z.succ a) by lia.
      rewrite pow2_Z by lia. rewrite <- Zlt_Qlt. exact Pb.
    - apply Qmult_le_l; [apply pow2_pos|]. rewrite pow2_Z by lia.
      rewrite <- Zle_Qle. exact Qa. }
  destruct (Qlt_bool (p # q) (pow2 (a - b))) eqn:E.
  - apply Qlt_bool_true in E. replace (a - b - 1 + 1)%Z with (a - b)%Z by lia. auto.
  - apply Qlt_bool_false in E. split; [exact E|exact B].
Qed.

Lemma exponent_mono (x y : Q) : 0 < x -> x <= y -> (exponent x <= exponent y)%Z.
Proof.
  intros Hx Hxy. destruct (exponent_spec x Hx) as [A _].
  destruct (exponent_spec y (Qlt_le_trans _ _ _ Hx Hxy)) as [_ B].
  assert (pow2 (exponent x) < pow2 (exponent y + 1)) as C.
  { apply (Qle_lt_trans _ x); [exact A|]. apply (Qle_lt_trans _ y); assumption. }
  apply pow2_lt_inv in C. lia.
Qed.

Lemma rhe_ge_int (y : Q) (N : Z) : inject_Z N <= y -> (N <= round_half_even y)%Z.
Proof.
  intros H. assert (Hf : (N <= Qfloor y)%Z).
  { rewrite <- (Qfloor_Z N). apply Qfloor_resp_le, H. }
  unfold round_half_even. cbv zeta.
  destruct (Qlt_bool _ (1#2)); [lia|]. destruct (Qlt_bool (1#2) _); [lia|].
  destruct (Z.even _); lia.
Qed.

Lemma rhe_le_int (y : Q) (N : Z) : y <= inject_Z N -> (round_half_even y <= N)%Z.
Proof.
  intros H. assert (Hf : (Qfloor y <= N)%Z).
  { rewrite <- (Qfloor_Z N). apply Qfloor_resp_le, H. }
  unfold round_half_even. cbv zeta.
  destruct (Z.eq_dec (Qfloor y) N) as [E|Ne].
  - assert (R : Qlt_bool (y - inject_Z (Qfloor y)) (1#2) = true).
    { apply Qlt_bool_true. rewrite E. apply (Qle_lt_trans _ 0); [|reflexivity].
      apply (Qplus_le_l _ _ (inject_Z N)). ring_simplify. exact H. }
    rewrite R. lia.
  - destruct (Qlt_bool _ (1#2)); [lia|]. destruct (Qlt_bool (1#2) _); [lia|].
    destruct (Z.even _); lia.
Qed.

Lemma rhe_mono (y1 y2 : Q) : y1 <= y2 -> (round_half_even y1 <= round_half_even y2)%Z.
Proof.
  intros H. assert (Hf : (Qfloor y1 <= Qfloor y2)%Z) by (apply Qfloor_resp_le, H).
  destruct (Z.eq_dec (Qfloor y1) (Qfloor y2)) as [E|Ne].
  - unfold round_half_even. cbv zeta. rewrite <- E. set (f := Qfloor y1).
    destruct (Qlt_bool (y1 - inject_Z f) (1#2)) eqn:A1;
    destruct (Qlt_bool (1#2) (y1 - inject_Z f)) eqn:B1;
    destruct (Qlt_bool (y2 - inject_Z f) (1#2)) eqn:A2;
    destruct (Qlt_bool (1#2) (y2 - inject_Z f)) eqn:B2;
    repeat match goal with
           | H : Qlt_bool _ _ = true |- _ => apply Qlt_bool_true in H
           | H : Qlt_bool _ _ = false |- _ => apply Qlt_bool_false in H
           end;
    try (destruct (Z.even f); lia); try lia; exfalso; Lqa.lra.
  - assert (U : (round_half_even y1 <= Qfloor y1 + 1)%Z).
    { unfold round_half_even. cbv zeta.
      destruct (Qlt_bool _ (1#2)); [lia|]. destruct (Qlt_bool (1#2) _); [lia|].
      destruct (Z.even _); lia. }
    assert (L : (Qfloor y2 <= round_half_even y2)%Z)
      by (apply rhe_ge_int; apply Qfloor_le).
    lia.
Qed.

Lemma dbl_of (m k : Z) : (0 <= m <= 2 ^ 53)%Z -> (-1074 <= k)%Z -> dbl (inject_Z m * pow2 k).
Proof.
  intros Hm Hk. destruct (Z.eq_dec m (2 ^ 53)) as [->|Ne].
  - exists (2 ^ 52)%Z, (k + 1)%Z. split; [lia|]. split; [lia|].
    rewrite <- !pow2_Z by lia. rewrite <- !pow2_plus.
    replace (53 + k)%Z with (52 + (k + 1))%Z by lia. reflexivity.
  - exists m, k. split; [lia|]. split; [lia|reflexivity].
Qed.

Lemma inject_Z_nonneg (m : Z) : (0 <= m)%Z -> 0 <= inject_Z m.
Proof. intros H. change 0 with (inject_Z 0). rewrite <- Zle_Qle. exact H. Qed.

Lemma round_pos_shape (x : Q) : 0 < x ->
  (0 <= round_half_even (x / pow2 (quantum x)) <= 2 ^ 53)%Z /\
  (-1074 <= quantum x)%Z /\ (exponent x - 52 <= quantum x)%Z.
Proof.
  intros Hx. destruct (exponent_spec x Hx) as [E1 E2].
  assert (Hk1 : (-1074 <= quantum x)%Z) by (unfold quantum; lia).
  assert (Hk2 : (exponent x - 52 <= quantum x)%Z) by (unfold quantum; lia).
  split; [split|split; assumption].
  - apply rhe_ge_int. apply Qle_shift_div_l; [apply pow2_pos|].
    change (inject_Z 0) with 0. rewrite Qmult_0_l. apply Qlt_le_weak, Hx.
  - apply rhe_le_int. apply Qle_shift_div_r; [apply pow2_pos|].
    rewrite <- pow2_Z by lia. rewrite <- pow2_plus. apply Qlt_le_weak.
    apply (Qlt_le_trans _ _ _ E2). apply pow2_le. lia.
Qed.

(** Rounding is bounded by any double above its argument. *)
Lemma round_pos_le (x F : Q) : 0 < x -> x <= F -> dbl F -> F < pow2 1024 ->
  exists v, round_pos x = Finite v /\ 0 <= v /\ v <= F /\ dbl v.
Proof.
  intros Hx HxF [M [K [HM [HK HF]]]] Htop.
  destruct (round_pos_shape x Hx) as [Hm [Hk1 Hk2]].
  destruct (exponent_spec x Hx) as [E1 _].
  unfold round_pos. cbv zeta.
  set (k := quantum x) in *. set (m := round_half_even (x / pow2 k)) in *.
  assert (HkK : (k <= K)%Z).
  { assert (C : pow2 (exponent x) < pow2 (53 + K)).
    { apply (Qle_lt_trans _ x _ E1). apply (Qle_lt_trans _ F _ HxF).
      rewrite HF, pow2_plus, (pow2_Z 53) by lia. apply Qmult_lt_r; [apply pow2_pos|].
      rewrite <- Zlt_Qlt. lia. }
    apply pow2_lt_inv in C.
    assert (Hkd : k = Z.max (exponent x - 52) (-1074)) by reflexivity. lia. }
  assert (HmM : (m <= M * 2 ^ (K - k))%Z).
  { apply rhe_le_int. apply Qle_shift_div_r; [apply pow2_pos|].
    rewrite inject_Z_mult, <- pow2_Z by lia. rewrite <- Qmult_assoc, <- pow2_plus.
    replace (K - k + k)%Z with K by lia. rewrite <- HF. exact HxF. }
  assert (Hv : inject_Z m * pow2 k <= F).
  { rewrite HF. apply (Qle_trans _ (inject_Z (M * 2 ^ (K - k)) * pow2 k)).
    - apply Qmult_le_compat_r; [rewrite <- Zle_Qle; exact HmM|apply Qlt_le_weak, pow2_pos].
    - rewrite inject_Z_mult, <- pow2_Z by lia. rewrite <- Qmult_assoc, <- pow2_plus.
      replace (K - k + k)%Z with K by lia. apply Qle_refl. }
  assert (Hv0 : 0 <= inject_Z m * pow2 k).
  { apply Qmult_le_0_compat; [apply inject_Z_nonneg; lia|apply Qlt_le_weak, pow2_pos]. }
  destruct (Qle_bool (pow2 1024) (inject_Z m * pow2 k)) eqn:Eb.
  - apply Qle_bool_iff in Eb. exfalso. apply (Qlt_not_le _ _ Htop).
    apply (Qle_trans _ _ _ Eb Hv).
  - exists (inject_Z m * pow2 k). split; [reflexivity|]. split; [exact Hv0|].
    split; [exact Hv|]. apply dbl_of; lia.
Qed.

Lemma round_pos_finite (y w : Q) : 0 < y -> round_pos y = Finite w ->
  0 <= w /\ w < pow2 1024 /\ dbl w /\
  w = inject_Z (round_half_even (y / pow2 (quantum y))) * pow2 (quantum y).
Proof.
  intros Hy Hw. destruct (round_pos_shape y Hy) as [Hm [Hk1 Hk2]].
  unfold round_pos in Hw. cbv zeta in Hw.
  destruct (Qle_bool (pow2 1024) _) eqn:Eb; [discriminate|].
  injection Hw as <-. split; [|split; [|split; [apply dbl_of; lia|reflexivity]]].
  - apply Qmult_le_0_compat; [apply inject_Z_nonneg; lia|apply Qlt_le_weak, pow2_pos].
  - apply Qnot_le_lt. intros C. apply Qle_bool_iff in C. congruence.
Qed.

(** Rounding is monotone. *)
Lemma round_pos_mono (x y w : Q) : 0 < x -> x <= y -> round_pos y = Finite w ->
  exists v, round_pos x = Finite v /\ 0 <= v /\ v <= w /\ dbl v.
Proof.
  intros Hx Hxy Hw. assert (Hy : 0 < y) by (apply (Qlt_le_trans _ x); assumption).
  destruct (round_pos_finite y w Hy Hw) as [Hw0 [Hwt [Hwd Hwe]]].
  destruct (round_pos_shape x Hx) as [Hmx [Hkx1 Hkx2]].
  destruct (round_pos_shape y Hy) as [Hmy [Hky1 Hky2]].
  pose proof (exponent_mono x y Hx Hxy) as He.
  assert (Hkk : (quantum x <= quantum y)%Z) by (unfold quantum in *; lia).
  destruct (Z.eq_dec (quantum x) (quantum y)) as [Ek|Nk].
  - assert (Hmm : (round_half_even (x / pow2 (quantum x)) <=
                   round_half_even (y / pow2 (quantum y)))%Z).
    { rewrite Ek. apply rhe_mono. unfold Qdiv. apply Qmult_le_compat_r; [exact Hxy|].
      apply Qinv_le_0_compat, Qlt_le_weak, pow2_pos. }
    assert (Hvw : inject_Z (round_half_even (x / pow2 (quantum x))) * pow2 (quantum x) <= w).
    { rewrite Hwe, <- Ek. rewrite <- Ek in Hmm.
      apply Qmult_le_compat_r; [rewrite <- Zle_Qle; exact Hmm|].
      apply Qlt_le_weak, pow2_pos. }
    unfold round_pos. cbv zeta.
    destruct (Qle_bool (pow2 1024) _) eqn:Eb.
    + apply Qle_bool_iff in Eb. exfalso. apply (Qlt_not_le _ _ Hwt).
      apply (Qle_trans _ _ _ Eb Hvw).
    + eexists. split; [reflexivity|]. split; [|split; [exact Hvw|apply dbl_of; lia]].
      apply Qmult_le_0_compat; [apply inject_Z_nonneg; lia|apply Qlt_le_weak, pow2_pos].
  - assert (Hky : quantum y = (exponent y - 52)%Z) by (unfold quantum in *; lia).
    destruct (exponent_spec y Hy) as [Fy _].
    destruct (exponent_spec x Hx) as [_ Gx].
    assert (HF : pow2 (exponent y) == inject_Z (2 ^ 52) * pow2 (quantum y)).
    { rewrite <- pow2_Z by lia. rewrite <- pow2_plus, Hky.
      replace (52 + (exponent y - 52))%Z with (exponent y) by lia. reflexivity. }
    assert (HFw : pow2 (exponent y) <= w).
    { rewrite HF, Hwe. apply Qmult_le_compat_r; [|apply Qlt_le_weak, pow2_pos].
      rewrite <- Zle_Qle. apply rhe_ge_int. apply Qle_shift_div_l; [apply pow2_pos|].
      rewrite <- HF. exact Fy. }
    assert (HxF : x <= pow2 (exponent y)).
    { apply Qlt_le_weak. apply (Qlt_le_trans _ _ _ Gx). apply pow2_le.
      unfold quantum in *; lia. }
    assert (HFd : dbl (pow2 (exponent y))).
    { exists (2 ^ 52)%Z, (quantum y). split; [lia|]. split; [lia|exact HF]. }
    destruct (round_pos_le x _ Hx HxF HFd (Qle_lt_trans _ _ _ HFw Hwt))
      as [v [Hv [Hv0 [HvF Hvd]]]].
    exists v. split; [exact Hv|]. split; [exact Hv0|]. split; [|exact Hvd].
    apply (Qle_trans _ _ _ HvF HFw).
Qed.

Lemma toDouble_pos (x : Q) : 0 < x -> toDouble x = round_pos x.
Proof. intros H. unfold toDouble. rewrite (proj2 (Qlt_bool_true 0 x) H). reflexivity. Qed.

Lemma toDouble_le (x F : Q) : 0 <= x -> x <= F -> dbl F -> F < pow2 1024 ->
  exists v, toDouble x = Finite v /\ 0 <= v /\ v <= F /\ dbl v.
Proof.
  intros Hx HxF HFd Htop. destruct (Qlt_bool 0 x) eqn:E.
  - apply Qlt_bool_true in E. rewrite toDouble_pos by exact E.
    apply round_pos_le; assumption.
  - unfold toDouble. rewrite E.
    assert (E' : Qlt_bool x 0 = false) by (apply Qlt_bool_false; exact Hx).
    rewrite E'. exists 0. split; [reflexivity|]. split; [apply Qle_refl|].
    split; [apply (Qle_trans _ _ _ Hx HxF)|].
    exists 0%Z, 0%Z. split; [lia|]. split; [lia|reflexivity].
Qed.
Lemma max_double_dbl : dbl max_double.
Proof. exists (2 ^ 53 - 1)%Z, 971%Z. split; [lia|]. split; [lia|reflexivity]. Qed.

Lemma max_double_lt : max_double < pow2 1024.
Proof.
  unfold max_double. rewrite !pow2_Z by lia. rewrite <- inject_Z_mult, <- Zlt_Qlt.
  apply Z.ltb_lt. vm_compute. reflexivity.
Qed.

Lemma pow2_0_lt_1024 : 1 < pow2 1024.
Proof. change 1 with (pow2 0). apply pow2_lt. lia. Qed.



Lemma rhe_err (y : Q) :
  y - (1#2) <= inject_Z (round_half_even y) /\ inject_Z (round_half_even y) <= y + (1#2).
Proof.
  pose proof (Qfloor_le y) as F1. pose proof (Qlt_floor y) as F2.
  unfold round_half_even. cbv zeta. set (f := Qfloor y) in *.
  rewrite inject_Z_plus in F2. change (inject_Z 1) with 1 in F2.
  destruct (Qlt_bool (y - inject_Z f) (1#2)) eqn:A.
  { apply Qlt_bool_true in A. split; Lqa.lra. }
  apply Qlt_bool_false in A.
  destruct (Qlt_bool (1#2) (y - inject_Z f)) eqn:B.
  { apply Qlt_bool_true in B. rewrite inject_Z_plus. change (inject_Z 1) with 1. split; Lqa.lra. }
  apply Qlt_bool_false in B.
  destruct (Z.even f); [split; Lqa.lra|].
  rewrite inject_Z_plus. change (inject_Z 1) with 1. split; Lqa.lra.
Qed.

Lemma half_quantum_le (x : Q) : 0 < x ->
  pow2 (quantum x) * (1#2) <= pow2 (-53) * x + pow2 (-1075).
Proof.
  intros Hx. destruct (exponent_spec x Hx) as [E1 _].
  assert (H2 : pow2 (quantum x) * (1#2) == pow2 (quantum x - 1)).
  { rewrite (pow2_plus (quantum x) (-1)). reflexivity. }
  rewrite H2.
  assert (P1 : 0 <= pow2 (-53) * x).
  { apply Qmult_le_0_compat; [apply Qlt_le_weak, pow2_pos|apply Qlt_le_weak, Hx]. }
  assert (P2 : 0 <= pow2 (-1075)) by apply Qlt_le_weak, pow2_pos.
  destruct (Z.max_spec (exponent x - 52) (-1074)) as [[_ M]|[_ M]];
    unfold quantum; rewrite M.
  - apply (Qle_trans _ (pow2 (-1075))); [apply pow2_le; lia|Lqa.lra].
  - apply (Qle_trans _ (pow2 (-53) * x)); [|Lqa.lra].
    replace (exponent x - 52 - 1)%Z with (-53 + exponent x)%Z by lia.
    rewrite pow2_plus. apply Qmult_le_l; [apply pow2_pos|exact E1].
Qed.

Lemma round_pos_err (x v : Q) : 0 < x -> round_pos x = Finite v ->
  x - (pow2 (-53) * x + pow2 (-1075)) <= v /\ v <= x + (pow2 (-53) * x + pow2 (-1075)).
Proof.
  intros Hx Hv. destruct (round_pos_finite x v Hx Hv) as [_ [_ [_ Ev]]].
  pose proof (half_quantum_le x Hx) as Hh.
  set (k := quantum x) in *.
  destruct (rhe_err (x / pow2 k)) as [L U].
  assert (Hk : 0 < pow2 k) by apply pow2_pos.
  assert (Hk' : ~ pow2 k == 0) by (intros C; rewrite C in Hk; discriminate).
  rewrite Ev. split.
  - apply (Qle_trans _ ((x / pow2 k - (1#2)) * pow2 k)).
    + setoid_replace ((x / pow2 k - (1#2)) * pow2 k) with (x - pow2 k * (1#2))
        by (field; exact Hk').
      Lqa.lra.
    + apply Qmult_le_compat_r; [exact L|apply Qlt_le_weak, Hk].
  - apply (Qle_trans _ ((x / pow2 k + (1#2)) * pow2 k)).
    + apply Qmult_le_compat_r; [exact U|apply Qlt_le_weak, Hk].
    + setoid_replace ((x / pow2 k + (1#2)) * pow2 k) with (x + pow2 k * (1#2))
        by (field; exact Hk').
      Lqa.lra.
Qed.

(** The rounding error: relative [2^-53], absolute [2^-1075] below the
    normal range. *)
Lemma toDouble_err (x v : Q) : 0 <= x -> toDouble x = Finite v ->
  x - (pow2 (-53) * x + pow2 (-1075)) <= v /\ v <= x + (pow2 (-53) * x + pow2 (-1075)).
Proof.
  intros Hx Hv. destruct (Qlt_bool 0 x) eqn:E.
  - apply Qlt_bool_true in E. rewrite toDouble_pos in Hv by exact E.
    apply round_pos_err; assumption.
  - unfold toDouble in Hv. rewrite E in Hv.
    rewrite (proj2 (Qlt_bool_false x 0) Hx) in Hv. injection Hv as <-.
    apply Qlt_bool_false in E.
    assert (P2 : 0 <= pow2 (-1075)) by apply Qlt_le_weak, pow2_pos.
    assert (P1 : pow2 (-53) * x == 0).
    { setoid_replace x with 0 by (apply Qle_antisym; assumption). ring. }
    split; Lqa.lra.
Qed.

Lemma toDouble_mono (x y w : Q) : 0 <= x -> x <= y -> toDouble y = Finite w ->
  exists v, toDouble x = Finite v /\ 0 <= v /\ v <= w.
Proof.
  intros Hx Hxy Hw. destruct (Qlt_bool 0 x) eqn:E.
  - apply Qlt_bool_true in E. assert (Hy : 0 < y) by (apply (Qlt_le_trans _ x); assumption).
    rewrite toDouble_pos in Hw by exact Hy. rewrite toDouble_pos by exact E.
    destruct (round_pos_mono x y w E Hxy Hw) as [v [Hv [Hv0 [Hvw _]]]].
    exists v. auto.
  - unfold toDouble. rewrite E. rewrite (proj2 (Qlt_bool_false x 0) Hx).
    exists 0. split; [reflexivity|]. split; [apply Qle_refl|].
    destruct (Qlt_bool 0 y) eqn:Ey.
    + apply Qlt_bool_true in Ey. rewrite toDouble_pos in Hw by exact Ey.
      apply (round_pos_finite y w Ey Hw).
    + unfold toDouble in Hw. rewrite Ey in Hw.
      rewrite (proj2 (Qlt_bool_false y 0) (Qle_trans _ _ _ Hx Hxy)) in Hw.
      injection Hw as <-. apply Qle_refl.
Qed.

Lemma js_round_close (c e : Q) : c - e < 1 -> e - c < 1 -> (Z.abs (js_round c - js_round e) <= 1)%Z.
Proof.
  intros H1 H2. unfold js_round.
  pose proof (Qfloor_le (c + (1#2))) as A1. pose proof (Qlt_floor (c + (1#2))) as A2.
  pose proof (Qfloor_le (e + (1#2))) as B1. pose proof (Qlt_floor (e + (1#2))) as B2.
  rewrite inject_Z_plus in A2, B2. change (inject_Z 1) with 1 in A2, B2.
  assert (C1 : inject_Z (Qfloor (c + (1#2))) < inject_Z (Qfloor (e + (1#2)) + 2)).
  { rewrite inject_Z_plus. change (inject_Z 2) with 2. Lqa.lra. }
  assert (C2 : inject_Z (Qfloor (e + (1#2))) < inject_Z (Qfloor (c + (1#2)) + 2)).
  { rewrite inject_Z_plus. change (inject_Z 2) with 2. Lqa.lra. }
  rewrite <- Zlt_Qlt in C1, C2. lia.
Qed.

(** For a normal base price and an effective price between 0 and it,
    [calculateSavingsPercentage] is within one of the exactly rounded
    percentage: the double evaluation is off by far less than 1. *)
Lemma savings_close (B E : Q) : pow2 (-1022) <= B -> 0 <= E -> E <= B -> B <= max_double ->
  exists k, calculateSavingsPercentage B E = Finite (inject_Z k) /\
            (Z.abs (k - spec_savingsPercentage B E) <= 1)%Z.
Proof.
  unfold spec_savingsPercentage.
  intros HBL HE0 HEB HBM.
  assert (U : pow2 (-53) == 1 # 9007199254740992) by reflexivity.
  assert (T : pow2 (-1075) == (1 # 9007199254740992) * pow2 (-1022)).
  { rewrite <- U, <- pow2_plus. reflexivity. }
  assert (HL0 : 0 < pow2 (-1022)) by apply pow2_pos.
  assert (HL1 : pow2 (-1022) <= 1) by (change 1 with (pow2 0); apply pow2_le; lia).
  assert (HB : 0 < B) by Lqa.lra.
  destruct (toDouble_le B max_double (Qlt_le_weak _ _ HB) HBM max_double_dbl max_double_lt)
    as [o [Ho [Ho0 [HoM Hod]]]].
  pose proof (toDouble_err B o (Qlt_le_weak _ _ HB) Ho) as Eo.
  destruct (toDouble_mono E B o HE0 HEB Ho) as [n [Hn [Hn0 Hno]]].
  pose proof (toDouble_err E n HE0 Hn) as En.
  assert (Hot : o < pow2 1024) by (apply (Qle_lt_trans _ _ _ HoM max_double_lt)).
  rewrite U, T in Eo, En.
  set (L := pow2 (-1022)) in *.
  assert (Ho' : 0 < o) by Lqa.lra.
  unfold calculateSavingsPercentage. rewrite Ho, Hn. cbn [le_zero].
  assert (Eo0 : Qle_bool o 0 = false).
  { destruct (Qle_bool o 0) eqn:C; [|reflexivity]. apply Qle_bool_iff in C. Lqa.lra. }
  rewrite Eo0. unfold fsub, fneg. cbn [fadd].
  destruct (toDouble_le (o + - n) o) as [a [Ha [Ha0 [Hao _]]]];
    [Lqa.lra|Lqa.lra|exact Hod|exact Hot|].
  pose proof (toDouble_err (o + - n) a ltac:(Lqa.lra) Ha) as Ea.
  rewrite U, T in Ea. fold L in Ea.
  rewrite Ha. cbn [fdiv].
  destruct (Qeq_bool o 0) eqn:Eq0.
  { apply Qeq_bool_iff in Eq0. exfalso. rewrite Eq0 in Ho'. discriminate. }
  assert (Hq0 : 0 <= a / o) by (apply Qle_shift_div_l; [exact Ho'|Lqa.lra]).
  assert (Hq1 : a / o <= 1) by (apply Qle_shift_div_r; [exact Ho'|Lqa.lra]).
  destruct (toDouble_le (a / o) 1 Hq0 Hq1) as [b [Hb [Hb0 [Hb1 _]]]].
  { exists 1%Z, 0%Z. split; [lia|]. split; [lia|reflexivity]. }
  { exact pow2_0_lt_1024. }
  pose proof (toDouble_err (a / o) b Hq0 Hb) as Eb.
  rewrite U, T in Eb. fold L in Eb.
  rewrite Hb. cbn [fmul].
  assert (Hc0 : 0 <= b * 100) by Lqa.lra.
  destruct (toDouble_le (b * 100) 100 Hc0) as [c [Hc [Hc1 [Hc2 _]]]].
  { Lqa.lra. }
  { exists 100%Z, 0%Z. split; [lia|]. split; [lia|reflexivity]. }
  { apply (Qlt_trans _ (pow2 7)); [reflexivity|apply pow2_lt; lia]. }
  pose proof (toDouble_err (b * 100) c Hc0 Hc) as Ec.
  rewrite U, T in Ec. fold L in Ec.
  rewrite Hc. cbn [math_round]. exists (js_round c). split; [reflexivity|].
  assert (HBnz : ~ B == 0) by (intros C; rewrite C in HB; discriminate).
  remember (E / B) as r eqn:Hr.
  assert (HEr : E == r * B) by (rewrite Hr; field; exact HBnz).
  assert (Hr0 : 0 <= r) by (rewrite Hr; apply Qle_shift_div_l; [exact HB|Lqa.lra]).
  assert (Hr1 : r <= 1) by (rewrite Hr; apply Qle_shift_div_r; [exact HB|Lqa.lra]).
  assert (Hspec : (B - E) / B * 100 == 100 - 100 * r) by (rewrite Hr; field; exact HBnz).
  clear Hr.
  assert (RO1 : r * (B - ((1 # 9007199254740992) * B + (1 # 9007199254740992) * L)) <= r * o)
    by (rewrite !(Qmult_comm r); apply Qmult_le_compat_r; Lqa.lra).
  assert (RO2 : r * o <= r * (B + ((1 # 9007199254740992) * B + (1 # 9007199254740992) * L)))
    by (rewrite !(Qmult_comm r); apply Qmult_le_compat_r; Lqa.lra).
  assert (RB : r * B <= B).
  { setoid_replace B with (1 * B) at 2 by ring. apply Qmult_le_compat_r; Lqa.lra. }
  assert (RL : r * L <= L).
  { setoid_replace L with (1 * L) at 2 by ring. apply Qmult_le_compat_r; Lqa.lra. }
  assert (RL0 : 0 <= r * L) by (apply Qmult_le_0_compat; Lqa.lra).
  assert (RB0 : 0 <= r * B) by (apply Qmult_le_0_compat; Lqa.lra).
  rewrite HEr in En.
  assert (A1 : (1 - r - 11 * (1 # 9007199254740992)) * o <= a) by Lqa.lra.
  assert (A2 : a <= (1 - r + 11 * (1 # 9007199254740992)) * o) by Lqa.lra.
  assert (Q1 : 1 - r - 11 * (1 # 9007199254740992) <= a / o)
    by (apply Qle_shift_div_l; [exact Ho'|exact A1]).
  assert (Q2 : a / o <= 1 - r + 11 * (1 # 9007199254740992))
    by (apply Qle_shift_div_r; [exact Ho'|exact A2]).
  remember (a / o) as q eqn:Hq. clear Hq.
  apply js_round_close; rewrite Hspec; Lqa.lra.
Qed.

End DoubleProofs.

Module PricingProofs.

Import TieredPricing.
Local Open Scope Q_scope.

Lemma insert_tier_perm (t : PriceTier) (l : list PriceTier) :
  Permutation (insert_tier t l) (t :: l).
Proof.
  induction l as [|h r IH]; simpl; [constructor; constructor|].
  destruct (min_quantity t <=? min_quantity h)%Z; [reflexivity|].
  rewrite IH. apply perm_swap.
Qed.

Lemma sortTiers_perm (l : list PriceTier) : Permutation (sortTiers l) l.
Proof.
  induction l as [|t r IH]; simpl; [constructor|].
  rewrite insert_tier_perm. constructor. exact IH.
Qed.

Lemma insert_tier_hdrel (a t : PriceTier) (l : list PriceTier) :
  HdRel tier_le a l -> tier_le a t -> HdRel tier_le a (insert_tier t l).
Proof.
  intros Hh Hat. destruct l as [|h r]; simpl.
  - constructor. exact Hat.
  - destruct (min_quantity t <=? min_quantity h)%Z; constructor; auto.
    inversion Hh; assumption.
Qed.

Lemma insert_tier_sorted (t : PriceTier) (l : list PriceTier) :
  Sorted tier_le l -> Sorted tier_le (insert_tier t l).
Proof.
  induction l as [|h r IH]; simpl; intros Hs.
  - repeat constructor.
  - destruct (Z.leb_spec (min_quantity t) (min_quantity h)) as [Hle|Hgt].
    + constructor; [exact Hs|]. constructor. exact Hle.
    + apply Sorted_inv in Hs as [Hr Hhd]. constructor; [apply IH, Hr|].
      apply insert_tier_hdrel; [exact Hhd|]. unfold tier_le. lia.
Qed.

Lemma sortTiers_sorted (l : list PriceTier) : Sorted tier_le (sortTiers l).
Proof.
  induction l as [|t r IH]; simpl; [constructor|]. apply insert_tier_sorted, IH.
Qed.

Lemma calculateSavingsPercentage_spec (base eff : Q) :
  calculateSavingsPercentage base eff =
  if le_zero (toDouble base) then Finite 0 else double_savingsPercentage base eff.
Proof. reflexivity. Qed.

Lemma Qlt_bool_iff (x y : Q) : Qlt_bool x y = true <-> x < y.
Proof.
  unfold Qlt_bool. rewrite negb_true_iff. split; intros H.
  - apply Qnot_le_lt. intros Hle. apply Qle_bool_iff in Hle. congruence.
  - destruct (Qle_bool y x) eqn:E; [|reflexivity].
    apply Qle_bool_iff in E. exfalso. apply (Qlt_not_le _ _ H E).
Qed.

Lemma activeDiscount_spec (tier : PriceTier) :
  match activeDiscount tier with
  | Some d => discounted_unit_price tier = Some d /\ 0 < d /\ d < unit_price tier
  | None => forall d, discounted_unit_price tier = Some d -> ~ (0 < d /\ d < unit_price tier)
  end.
Proof.
  unfold activeDiscount. destruct (discounted_unit_price tier) as [d|] eqn:Ed.
  - destruct (truthy d && Qlt_bool 0 d && Qlt_bool d (unit_price tier)) eqn:E.
    + apply andb_true_iff in E as [E1 E3]. apply andb_true_iff in E1 as [_ E2].
      apply Qlt_bool_iff in E2, E3. auto.
    + intros d' Hd' [H0 H1]. injection Hd' as <-.
      assert (Ht : truthy d = true).
      { unfold truthy. apply negb_true_iff. destruct (Qeq_bool d 0) eqn:Z0; [|reflexivity].
        apply Qeq_bool_iff in Z0. rewrite Z0 in H0. discriminate H0. }
      apply Qlt_bool_iff in H0, H1. rewrite Ht, H0, H1 in E. discriminate E.
  - intros d Hd. discriminate Hd.
Qed.

Lemma tieredPricingTable_rows (tiers : list PriceTier) (basePrice : Q)
    (baseDiscountedPrice : option Q) :
  match tieredPricingTable tiers basePrice baseDiscountedPrice with
  | None => tiers = []
  | Some rows => rows = map (tierRow (js_or baseDiscountedPrice basePrice)) (sortTiers tiers)
  end.
Proof. destruct tiers; reflexivity. Qed.

(** C7 (amended): the presenter lists the tiers sorted ascending by
    [min_quantity] (a permutation of the input) and gives each tier the
    savings percentage [Math.round((base - effective) / base * 100)]
    evaluated on JavaScript numbers (every operation rounded to a double)
    when the base unit price ([baseDiscountedPrice || basePrice]) is
    positive, and [0] when it is not. For a base unit price in the normal
    range ([2^-1022 <= base <= max_double]) and an effective price in
    [0 .. base], the result is an integer within one of the exactly
    rounded [round((base - effective) / base * 100)]. For the tiers
    10 @ 9.00, 50 @ 7.00, 5 @ 9.50 and base price 10.00 the rows come in
    the order 5, 10, 50 and the savings percentages are 5, 10 and 30. *)
Theorem tieredPricingTable_sorted_savings (tiers : list PriceTier) (basePrice : Q)
    (baseDiscountedPrice : option Q) :
  match tieredPricingTable tiers basePrice baseDiscountedPrice with
  | None => tiers = []
  | Some rows =>
    let base := js_or baseDiscountedPrice basePrice in
    Sorted tier_le (sortTiers tiers) /\ Permutation (sortTiers tiers) tiers /\
    Forall2 (fun t r => row_min_quantity r = min_quantity t /\
               savingsPercentage r =
               (if le_zero (toDouble base) then Finite 0
                else double_savingsPercentage base (effectivePrice r)) /\
               (pow2 (-1022) <= base -> 0 <= effectivePrice r -> effectivePrice r <= base ->
                base <= max_double ->
                exists k, savingsPercentage r = Finite (inject_Z k) /\
                  (Z.abs (k - spec_savingsPercentage base (effectivePrice r)) <= 1)%Z))
      (sortTiers tiers) rows
  end /\
  match tieredPricingTable
          [mkPriceTier 1 10 9 None; mkPriceTier 2 50 7 None; mkPriceTier 3 5 (19#2) None]
          10 None with
  | Some rows => map row_min_quantity rows = [5%Z; 10%Z; 50%Z] /\
                 map savingsPercentage rows = [Finite 5; Finite 10; Finite 30]
  | None => False
  end.
Proof.
  split; [|vm_compute; split; reflexivity].
  pose proof (tieredPricingTable_rows tiers basePrice baseDiscountedPrice) as Hr.
  destruct (tieredPricingTable tiers basePrice baseDiscountedPrice) as [rows|];
    [|exact Hr].
  subst rows. cbv zeta. split; [apply sortTiers_sorted|].
  split; [apply sortTiers_perm|].
  induction (sortTiers tiers) as [|t r IH]; simpl; constructor; [|exact IH].
  split; [reflexivity|split; [apply calculateSavingsPercentage_spec|]].
  intros HL H0 H1 HM. apply DoubleProofs.savings_close; assumption.
Qed.

(** C7 fails as stated: the code does not compute the exact
    [round((base - effective) / base * 100)]. With base price 2.00 and a
    tier at 0.85 the double quotient is [57.49999999999999] and the code
    shows 57 where the formula gives 58; and for a non-positive base price
    the guard [originalPrice <= 0] yields 0 where the formula yields 170. *)
Lemma tieredPricingTable_savings_counterexample :
  match tieredPricingTable [mkPriceTier 1 5 (17#20) None] 2 None with
  | Some [r] => savingsPercentage r = Finite 57 /\
                spec_savingsPercentage 2 (effectivePrice r) = 58%Z
  | _ => False
  end /\
  match tieredPricingTable [mkPriceTier 1 5 7 None] (-10) None with
  | Some [r] => savingsPercentage r = Finite 0 /\
                spec_savingsPercentage (-10) (effectivePrice r) = 170%Z
  | _ => False
  end.
Proof. vm_compute. split; split; reflexivity. Qed.

(** C8: the effective unit price of a tier is its discounted price only
    when that price is present, positive and strictly below the list unit
    price; otherwise (absent, zero, negative, or not below the list price)
    it is the list unit price. The total at the tier's quantity and the
    savings percentage are computed from this effective price, and the
    rows of the table are exactly these per-tier rows. *)
Theorem tierRow_effectivePrice (base : Q) (tier : PriceTier) :
  let r := tierRow base tier in
  (forall d, discounted_unit_price tier = Some d -> 0 < d -> d < unit_price tier ->
             effectivePrice r = d) /\
  ((forall d, discounted_unit_price tier = Some d -> ~ (0 < d /\ d < unit_price tier)) ->
   effectivePrice r = unit_price tier) /\
  totalAtQty r = effectivePrice r * inject_Z (min_quantity tier) /\
  savingsPercentage r = calculateSavingsPercentage base (effectivePrice r) /\
  (forall tiers basePrice baseDiscountedPrice,
     match tieredPricingTable tiers basePrice baseDiscountedPrice with
     | None => True
     | Some rows => rows = map (tierRow (js_or baseDiscountedPrice basePrice)) (sortTiers tiers)
     end).
Proof.
  cbv zeta. pose proof (activeDiscount_spec tier) as Ha. unfold tierRow; simpl.
  split; [|split; [|split; [reflexivity|split; [reflexivity|]]]].
  - intros d Hd H0 H1. destruct (activeDiscount tier) as [d'|].
    + destruct Ha as [Hd' _]. congruence.
    + exfalso. exact (Ha d Hd (conj H0 H1)).
  - intros Hno. destruct (activeDiscount tier) as [d'|]; [|reflexivity].
    destruct Ha as [Hd' Hlt]. exfalso. exact (Hno d' Hd' Hlt).
  - intros tiers basePrice baseDiscountedPrice.
    pose proof (tieredPricingTable_rows tiers basePrice baseDiscountedPrice) as Hr.
    destruct (tieredPricingTable tiers basePrice baseDiscountedPrice); [exact Hr|exact I].
Qed.

End PricingProofs.

(* ===================================================================== *)
(** * Upload pipeline: proofs                                             *)
(* ===================================================================== *)

Module UploadProofs.

Import UploadPipeline.
Local Open Scope nat_scope.

Lemma uploadLoop_records (now total i : nat) (os : list FileOutcome) :
  let imgs := snd (uploadLoop now total i os) in
  map display_order imgs = successIndices i os /\
  map url imgs = successUrls os /\
  Forall (fun r => is_featured r = Nat.eqb (display_order r) 0) imgs.
Proof.
  revert i. induction os as [|o r IH]; intros i; simpl; [repeat split; constructor|].
  destruct (IH (S i)) as [H1 [H2 H3]].
  destruct (uploadLoop now total (S i) r) as [rs' imgs]; simpl in *.
  destruct o; simpl; auto.
  repeat split; simpl; try congruence. constructor; [reflexivity|exact H3].
Qed.

Lemma successIndices_all (i : nat) (os : list FileOutcome) :
  forallb isSuccess os = true -> successIndices i os = seq i (length os).
Proof.
  revert i. induction os as [|o r IH]; intros i H; simpl; [reflexivity|].
  destruct o; simpl in H; try discriminate H. f_equal. apply IH, H.
Qed.

(** C2 (amended): every batch returns normally with the records of the
    files that uploaded, in input order; each record's [display_order]
    is its file's position in the input batch and its [is_featured] flag
    holds exactly when that position is 0. When every file uploads the
    orders are 0, 1, ..., n-1 and exactly the first record is featured;
    a failing file leaves a gap, and a failing first file leaves no
    featured record. *)
Theorem uploadProductImages_display_order (now : nat) (files : list FileOutcome) :
  exists imgs, snd (uploadProductImages now files) = Ok imgs /\
    map display_order imgs = successIndices 0 files /\
    Forall (fun r => is_featured r = Nat.eqb (display_order r) 0) imgs /\
    (forallb isSuccess files = true ->
       map display_order imgs = seq 0 (length files) /\
       map is_featured imgs = map (fun k => Nat.eqb k 0) (seq 0 (length files))).
Proof.
  assert (Hgen : forall imgs, imgs = snd (uploadLoop now (length files) 0 files) ->
    map display_order imgs = successIndices 0 files /\
    Forall (fun r => is_featured r = Nat.eqb (display_order r) 0) imgs /\
    (forallb isSuccess files = true ->
       map display_order imgs = seq 0 (length files) /\
       map is_featured imgs = map (fun k => Nat.eqb k 0) (seq 0 (length files)))).
  { intros imgs ->. destruct (uploadLoop_records now (length files) 0 files) as [H1 [_ H3]].
    split; [exact H1|]. split; [exact H3|]. intros Hall.
    rewrite successIndices_all in H1 by exact Hall. split; [exact H1|].
    rewrite <- H1, map_map. apply map_ext_in. intros x Hx.
    rewrite Forall_forall in H3. apply H3, Hx. }
  destruct files as [|o r].
  - exists []. simpl. repeat split; constructor.
  - specialize (Hgen (snd (uploadLoop now (length (o :: r)) 0 (o :: r))) eq_refl).
    unfold uploadProductImages.
    destruct (uploadLoop now (length (o :: r)) 0 (o :: r)) as [rs imgs].
    exists imgs. split; [reflexivity|exact Hgen].
Qed.

(** C2 fails as stated: when the first of two files fails, the only
    record has [display_order] 1 (not the dense sequence [0]) and no
    record is featured. *)
Lemma uploadProductImages_first_fails_counterexample :
  match snd (uploadProductImages 0 [CompressFails; UploadSucceeds 5]) with
  | Ok imgs => map display_order imgs <> seq 0 (length imgs) /\
               filter is_featured imgs = []
  | Throw => False
  end.
Proof. simpl. split; [intros H; discriminate H|reflexivity]. Qed.

(** C4: an upload batch always returns normally (no error is raised to
    the caller), with the records of exactly the files that uploaded, in
    input order, whatever fails around them. For a batch of three files
    whose second fails (whether compression throws, the storage call
    rejects, or it resolves with an error), the result holds the two
    records of files 1 and 3, and the only failure reported is the one
    for file 2. *)
Theorem uploadProductImages_partial_success (now : nat) (files : list FileOutcome) :
  (exists imgs, snd (uploadProductImages now files) = Ok imgs /\
     map url imgs = successUrls files /\
     map display_order imgs = successIndices 0 files) /\
  (forall a b f,
     match f with
     | UploadSucceeds _ => True
     | _ =>
       snd (uploadProductImages now [UploadSucceeds a; f; UploadSucceeds b]) =
         Ok [mkUploadedImage (now, 0) a true 0; mkUploadedImage (now, 2) b false 2] /\
       exists e, fst (uploadProductImages now [UploadSucceeds a; f; UploadSucceeds b]) =
                   [Progress 1 3; e; Progress 3 3] /\
                 (e = ToastProcessError 2 \/ exists m, e = ToastUploadError 2 m)
     end).
Proof.
  split.
  - destruct files as [|o r]; [exists []; repeat split|].
    destruct (uploadLoop_records now (length (o :: r)) 0 (o :: r)) as [H1 [H2 _]].
    unfold uploadProductImages.
    destruct (uploadLoop now (length (o :: r)) 0 (o :: r)) as [rs imgs].
    exists imgs. simpl in *. auto.
  - intros a b f. destruct f as [|m| |u]; simpl; try exact I;
      (split; [reflexivity|]); eauto 6.
Qed.

End UploadProofs.

(* ===================================================================== *)
(** * Deletion: proofs                                                    *)
(* ===================================================================== *)

Module DeletionProofs.

Import Deletion.

Lemma deleteProductImage_effects (parseUrl : nat -> option (option nat))
    (removeOk : nat -> bool) (u : nat) :
  snd (deleteProductImage parseUrl removeOk u) = Ok tt /\
  fst (deleteProductImage parseUrl removeOk u) =
    match parseUrl u with
    | None => [LogError]
    | Some None => []
    | Some (Some path) => StorageRemove path :: (if removeOk path then [] else [LogError])
    end.
Proof.
  unfold deleteProductImage, storageFromSupabase.
  destruct (parseUrl u) as [[path|]|]; simpl; auto.
  destruct (removeOk path); simpl; auto.
Qed.

Lemma deleteAll_flat_map (parseUrl : nat -> option (option nat))
    (removeOk : nat -> bool) (urls : list nat) :
  deleteAll parseUrl removeOk urls =
  flat_map (fun u => fst (deleteProductImage parseUrl removeOk u)) urls.
Proof.
  induction urls as [|u r IH]; simpl; [reflexivity|].
  destruct (deleteProductImage_effects parseUrl removeOk u) as [Hs _].
  destruct (deleteProductImage parseUrl removeOk u) as [effs res]. simpl in *.
  subst res. rewrite IH. reflexivity.
Qed.

(** C6: deleting an image never raises to the caller: a failed remote
    removal (or an unparsable url) is logged and swallowed. In
    [deleteProductImages], once the urls have been selected, every remote
    removal (with its logging) happens before the metadata rows are
    deleted, and the row deletion is issued whether the removals
    succeeded or not; nothing is removed from storage afterwards. *)
Theorem deleteProductImages_best_effort (parseUrl : nat -> option (option nat))
    (removeOk : nat -> bool) (selectResult : option (list nat)) (deleteOk : bool)
    (imageIds : list nat) :
  (forall u,
     snd (deleteProductImage parseUrl removeOk u) = Ok tt /\
     (forall path, parseUrl u = Some (Some path) -> removeOk path = false ->
        fst (deleteProductImage parseUrl removeOk u) = [StorageRemove path; LogError])) /\
  snd (deleteProductImages parseUrl removeOk selectResult deleteOk imageIds) = Ok tt /\
  match selectResult with
  | None => True
  | Some urls =>
    exists post,
      fst (deleteProductImages parseUrl removeOk selectResult deleteOk imageIds) =
        (SelectUrls imageIds
           :: flat_map (fun u => fst (deleteProductImage parseUrl removeOk u)) urls)
        ++ DeleteRows imageIds :: post /\
      forall path, ~ In (StorageRemove path) post
  end.
Proof.
  split; [|split].
  - intros u. destruct (deleteProductImage_effects parseUrl removeOk u) as [Hs He].
    split; [exact Hs|]. intros path Hp Hr. rewrite He, Hp, Hr. reflexivity.
  - unfold deleteProductImages. destruct selectResult; [destruct deleteOk|]; reflexivity.
  - destruct selectResult as [urls|]; [|exact I].
    unfold deleteProductImages. rewrite deleteAll_flat_map.
    destruct deleteOk; simpl.
    + exists []. split; [repeat rewrite <- ?app_assoc, <- ?app_comm_cons; reflexivity|].
      intros p H; exact H.
    + exists [LogError]. split.
      * repeat rewrite <- ?app_assoc, <- ?app_comm_cons. reflexivity.
      * intros p [H|H]; [discriminate H|exact H].
Qed.

End DeletionProofs.

(* ===================================================================== *)
(** * Media Manager: proofs                                               *)
(* ===================================================================== *)

Module MediaProofs.

Import MediaManager.
Local Open Scope nat_scope.

Lemma subseq_length {A} (l1 l2 : list A) : subseq l1 l2 -> length l1 <= length l2.
Proof. induction 1; simpl; lia. Qed.

Lemma subseq_map {A B} (f : A -> B) (l1 l2 : list A) :
  subseq l1 l2 -> subseq (map f l1) (map f l2).
Proof. induction 1; simpl; constructor; assumption. Qed.

Lemma newImages_shape (capEmpty : bool) (vr : ValidationResult) (index : nat)
    (vfs : list nat) (st : State) :
  let '(items, st') := newImages capEmpty vr index vfs st in
  map file items = map Some vfs /\
  map id items = seq (nextId st) (length vfs) /\
  map isFeatured items = map (fun k => capEmpty && Nat.eqb k 0) (seq index (length vfs)) /\
  nextId st' = nextId st + length vfs /\
  isProcessing st' = isProcessing st /\ processingQueue st' = processingQueue st.
Proof.
  revert index st. induction vfs as [|f rest IH]; intros index st; simpl.
  - repeat split; lia.
  - specialize (IH (S index)
      (set_refs (snd (createObjectURL (snd (uuidv4 st))))
         (ref_set (fileReferences (snd (createObjectURL (snd (uuidv4 st)))))
            (nextId st) (f, nextUrl st)))).
    destruct (newImages capEmpty vr (S index) rest _) as [items st'].
    destruct IH as [H1 [H2 [H3 [H4 [H5 H6]]]]]. simpl in *.
    repeat split; try congruence; try lia.
Qed.

Lemma slice0_firstn {A} (l : list A) (maxImages len : nat) :
  len <= maxImages ->
  slice0 l (Z.of_nat maxImages - Z.of_nat len)%Z = firstn (maxImages - len) l.
Proof.
  intros H. unfold slice0. destruct (Z.ltb_spec (Z.of_nat maxImages - Z.of_nat len) 0); [lia|].
  f_equal. lia.
Qed.

(** C3: from a list no longer than [maxImages], an addition never makes
    the list longer than [maxImages]. Only the first
    [maxImages - length images] files of the batch reach the validator;
    the list becomes the old list followed by new items whose files are,
    in input order, some of those first files (the validator may drop
    invalid or duplicate ones, never reorder). *)
Theorem handleFileSelect_capacity (maxImages : nat) (files : list nat)
    (validate : list nat -> option ValidationResult) (st : State)
    (Hlen : length (images st) <= maxImages) (Hv : validator_contract validate) :
  (match handleFileSelect_begin maxImages files st with
   | InFlight p _ => filesToAdd p = firstn (maxImages - length (images st)) files
   | _ => True
   end) /\
  let st' := snd (handleFileSelect maxImages files validate st) in
  length (images st') <= maxImages /\
  exists added, images st' = images st ++ added /\
    subseq (map file added) (map Some (firstn (maxImages - length (images st)) files)).
Proof.
  assert (Hsame : length (images st) <= maxImages /\
    exists added, images st = images st ++ added /\
      subseq (map file added) (map Some (firstn (maxImages - length (images st)) files))).
  { split; [exact Hlen|]. exists []. rewrite app_nil_r. split; [reflexivity|].
    simpl. clear. induction (firstn _ files); simpl; constructor; assumption. }
  unfold handleFileSelect, handleFileSelect_begin.
  destruct files as [|f0 fs]; [split; [exact I|exact Hsame]|].
  destruct (processingQueue st); [split; [exact I|exact Hsame]|].
  rewrite slice0_firstn by exact Hlen.
  destruct (firstn (maxImages - length (images st)) (f0 :: fs)) as [|g gs] eqn:Ef;
    [split; [exact I|exact Hsame]|].
  split; [reflexivity|]. simpl filesToAdd.
  unfold handleFileSelect_end. simpl capImages.
  destruct (validate (g :: gs)) as [vr|] eqn:Evr; [|exact Hsame].
  pose proof (Hv _ _ Evr) as Hsub.
  destruct (validFiles vr) as [|v vs] eqn:Evf; [exact Hsame|].
  pose proof (newImages_shape (Nat.eqb (length (images st)) 0) vr 0 (v :: vs)
                (set_processing st true)) as Hshape.
  destruct (newImages _ vr 0 (v :: vs) _) as [items st1].
  destruct Hshape as [Hf _]. simpl snd. simpl images.
  assert (Hlf : length items = length (v :: vs)).
  { rewrite <- (length_map file items), Hf, length_map. reflexivity. }
  pose proof (subseq_length _ _ Hsub) as Hsl.
  assert (Hk : length (g :: gs) <= maxImages - length (images st)).
  { rewrite <- Ef. rewrite length_firstn. lia. }
  split.
  - rewrite length_app. lia.
  - exists items. split; [reflexivity|]. rewrite Hf. apply subseq_map. exact Hsub.
Qed.

Lemma handleFileSelect_capacity_witness :
  let st := mkState [mkMediaItem 1 1 None true None None None] [] false false [] 10 10 in
  let validate := fun fs => Some (mkValidationResult fs [] [] (fun _ => None)
                                   (fun _ => None) (fun _ => None)) in
  (length (images st) <= 2 /\ validator_contract validate) /\
  ((match handleFileSelect_begin 2 [5; 6; 7] st with
    | InFlight p _ => filesToAdd p = firstn (2 - length (images st)) [5; 6; 7]
    | _ => True
    end) /\
   let st' := snd (handleFileSelect 2 [5; 6; 7] validate st) in
   length (images st') <= 2 /\
   exists added, images st' = images st ++ added /\
     subseq (map file added) (map Some (firstn (2 - length (images st)) [5; 6; 7]))).
Proof.
  intros st validate.
  assert (Hv : validator_contract validate).
  { intros fs vr H. injection H as <-. simpl.
    induction fs; constructor; assumption. }
  split; [split; [simpl; lia|exact Hv]|].
  apply (handleFileSelect_capacity 2 [5; 6; 7] validate st); [simpl; lia|exact Hv].
Defined.

(** C5: while an addition is in flight ([processingQueueRef.current] is
    set), a new request through the file input or by drag-and-drop is
    rejected with the busy toast and changes no state: no image, no
    object reference, no flag, nothing queued (a selection with no files
    is dropped silently before the check). Every addition that set the
    flag clears both busy flags ([processingQueueRef] and [isProcessing])
    when it finishes, whichever way it ends; a request that returns before
    the [await] clears them at once. *)
Theorem handleFileSelect_busy (maxImages : nat) (files : list nat) (st : State)
    (Hbusy : processingQueue st = true) :
  handleFileSelect_begin maxImages files st =
    match files with [] => Ignored | _ => Rejected ToastBusy end /\
  handleDrop_begin maxImages files st =
    match files with
    | [] => if isProcessing st then Rejected ToastBusy else Ignored
    | _ => Rejected ToastBusy
    end /\
  (forall validate, handleFileSelect maxImages files validate st =
     (match files with [] => [] | _ => [ToastBusy] end, st)) /\
  (forall p vr st0, processingQueue (snd (handleFileSelect_end p vr st0)) = false /\
                    isProcessing (snd (handleFileSelect_end p vr st0)) = false) /\
  (forall files0 st0, match handleFileSelect_begin maxImages files0 st0 with
     | Finished _ st1 => processingQueue st1 = false /\ isProcessing st1 = false
     | InFlight _ st1 => processingQueue st1 = true /\ isProcessing st1 = true
     | _ => True
     end).
Proof.
  assert (Hb : handleFileSelect_begin maxImages files st =
               match files with [] => Ignored | _ => Rejected ToastBusy end).
  { unfold handleFileSelect_begin. destruct files; [reflexivity|]. rewrite Hbusy. reflexivity. }
  split; [exact Hb|]. split; [|split; [|split]].
  - unfold handleDrop_begin. rewrite Hb.
    destruct (isProcessing st); destruct files; reflexivity.
  - intros validate. unfold handleFileSelect. rewrite Hb. destruct files; reflexivity.
  - intros p vr st0. unfold handleFileSelect_end.
    destruct vr as [vr|]; [|split; reflexivity].
    destruct (validFiles vr) as [|v vs]; [split; reflexivity|].
    destruct (newImages _ vr 0 (v :: vs) st0). split; reflexivity.
  - intros files0 st0. unfold handleFileSelect_begin.
    destruct files0; [exact I|]. destruct (processingQueue st0); [exact I|].
    destruct (slice0 _ _); split; reflexivity.
Qed.

Lemma handleFileSelect_busy_witness :
  let st := mkState [] [] true true [] 0 0 in
  processingQueue st = true /\
  (handleFileSelect_begin 10 [1] st =
     match [1] with [] => Ignored | _ => Rejected ToastBusy end /\
   handleDrop_begin 10 [1] st =
     match [1] with
     | [] => if isProcessing st then Rejected ToastBusy else Ignored
     | _ => Rejected ToastBusy
     end /\
   (forall validate, handleFileSelect 10 [1] validate st =
      (match [1] with [] => [] | _ => [ToastBusy] end, st)) /\
   (forall p vr st0, processingQueue (snd (handleFileSelect_end p vr st0)) = false /\
                     isProcessing (snd (handleFileSelect_end p vr st0)) = false) /\
   (forall files0 st0, match handleFileSelect_begin 10 files0 st0 with
      | Finished _ st1 => processingQueue st1 = false /\ isProcessing st1 = false
      | InFlight _ st1 => processingQueue st1 = true /\ isProcessing st1 = true
      | _ => True
      end)).
Proof.
  intros st. split; [reflexivity|].
  apply (handleFileSelect_busy 10 [1] st). reflexivity.
Defined.

Lemma filter_keep_absent (k : nat) (l : list MediaItem) :
  ~ In k (map id l) -> filter (fun img => negb (Nat.eqb (id img) k)) l = l.
Proof.
  induction l as [|a l IH]; simpl; intros H; [reflexivity|].
  destruct (Nat.eqb_spec (id a) k); [exfalso; auto|]. simpl. f_equal. auto.
Qed.

Lemma find_unique (l : list MediaItem) (r : MediaItem) :
  NoDup (map id l) -> In r l -> find (fun img => Nat.eqb (id img) (id r)) l = Some r.
Proof.
  induction l as [|a l IH]; simpl; intros Hnd Hin; [contradiction|].
  inversion Hnd as [|x y Hnotin Hnd']; subst.
  destruct Hin as [<-|Hin]; [rewrite Nat.eqb_refl; reflexivity|].
  destruct (Nat.eqb_spec (id a) (id r)) as [E|_]; [|auto].
  exfalso. apply Hnotin. rewrite E. apply in_map, Hin.
Qed.

Lemma filter_remove_one (l : list MediaItem) (r : MediaItem) :
  NoDup (map id l) -> In r l ->
  let rem := filter (fun img => negb (Nat.eqb (id img) (id r))) l in
  length rem = length l - 1 /\
  count_featured rem + (if isFeatured r then 1 else 0) = count_featured l.
Proof.
  unfold count_featured. induction l as [|a l IH]; simpl; intros Hnd Hin; [contradiction|].
  inversion Hnd as [|x y Hnotin Hnd']; subst.
  destruct Hin as [<-|Hin].
  - rewrite Nat.eqb_refl. simpl. rewrite filter_keep_absent by exact Hnotin.
    split; [lia|]. destruct (isFeatured a); simpl; lia.
  - destruct (Nat.eqb_spec (id a) (id r)) as [E|_].
    + exfalso. apply Hnotin. rewrite E. apply in_map, Hin.
    + simpl. destruct (IH Hnd' Hin) as [H1 H2].
      assert (0 < length l) by (destruct l; [contradiction|simpl; lia]).
      split; [lia|]. destruct (isFeatured a); simpl; lia.
Qed.

(** C9: in a list with unique ids and exactly one featured item,
    removing the featured item from a list of two or more items leaves
    the remaining items in order with the new first item featured and no
    other; removing it from a one-item list leaves the empty list; and
    removing a non-featured item leaves the remaining items, featured
    flags included, exactly as they were. *)
Theorem removeImage_featured (st : State) (r : MediaItem)
    (Hnd : NoDup (map id (images st))) (H1 : count_featured (images st) = 1)
    (Hin : In r (images st)) :
  let l' := images (removeImage (id r) st) in
  let rem := filter (fun img => negb (Nat.eqb (id img) (id r))) (images st) in
  if isFeatured r then
    (if Nat.eqb (length (images st)) 1 then l' = []
     else exists f rest, rem = f :: rest /\ l' = with_featured f true :: rest /\
                         isFeatured (with_featured f true) = true /\
                         count_featured rest = 0)
  else l' = rem.
Proof.
  cbv zeta. destruct (filter_remove_one _ _ Hnd Hin) as [Hl Hc].
  assert (Himg : images (removeImage (id r) st) =
    match filter (fun img => negb (Nat.eqb (id img) (id r))) (images st) with
    | first :: rest => if isFeatured r then with_featured first true :: rest
                       else first :: rest
    | [] => []
    end).
  { unfold removeImage. rewrite (find_unique _ _ Hnd Hin).
    destruct (ref_get (fileReferences st) (id r)) as [[f u]|];
      destruct (filter _ (images st)); reflexivity. }
  rewrite Himg. clear Himg.
  destruct (filter _ (images st)) as [|f rest] eqn:Erem.
  - destruct (isFeatured r); [|reflexivity].
    simpl in Hl. destruct (images st) as [|a [|b l]]; simpl in *; try lia; reflexivity.
  - destruct (isFeatured r) eqn:Ef; [|reflexivity].
    destruct (Nat.eqb_spec (length (images st)) 1) as [E|_].
    + simpl in Hl. lia.
    + exists f, rest. split; [reflexivity|]. split; [reflexivity|]. split; [reflexivity|].
      unfold count_featured in *. simpl in Hc. destruct (isFeatured f); simpl in Hc; lia.
Qed.

Lemma removeImage_featured_witness :
  let a := mkMediaItem 1 11 None true None None None in
  let b := mkMediaItem 2 12 None false None None None in
  let st := mkState [a; b] [] false false [] 20 20 in
  (NoDup (map id (images st)) /\ count_featured (images st) = 1 /\ In a (images st)) /\
  (let l' := images (removeImage (id a) st) in
   let rem := filter (fun img => negb (Nat.eqb (id img) (id a))) (images st) in
   if isFeatured a then
     (if Nat.eqb (length (images st)) 1 then l' = []
      else exists f rest, rem = f :: rest /\ l' = with_featured f true :: rest /\
                          isFeatured (with_featured f true) = true /\
                          count_featured rest = 0)
   else l' = rem).
Proof.
  intros a b st.
  assert (Hnd : NoDup (map id (images st))).
  { simpl. constructor; [simpl; lia|]. constructor; [simpl; tauto|constructor]. }
  assert (Hin : In a (images st)) by (simpl; auto).
  split; [split; [exact Hnd|split; [reflexivity|exact Hin]]|].
  apply (removeImage_featured st a Hnd); [reflexivity|exact Hin].
Defined.

Lemma cropMap_absent (k cf : nat) (l : list MediaItem) (s : State) :
  ~ In k (map id l) -> cropMap k cf l s = (l, s).
Proof.
  revert s. induction l as [|a l IH]; intros s H; simpl; [reflexivity|].
  destruct (Nat.eqb_spec (id a) k); [exfalso; simpl in H; auto|].
  rewrite IH; [reflexivity|]. simpl in H. auto.
Qed.

Lemma map_recropped_absent (k u cf : nat) (l : list MediaItem) :
  ~ In k (map id l) -> map (recropped k u cf) l = l.
Proof.
  induction l as [|a l IH]; intros H; simpl; [reflexivity|].
  unfold recropped at 1. destruct (Nat.eqb_spec (id a) k); [exfalso; simpl in H; auto|].
  rewrite IH; [reflexivity|]. simpl in H. auto.
Qed.

Lemma cropMap_present (k cf : nat) (l : list MediaItem) (s : State) :
  NoDup (map id l) -> In k (map id l) ->
  exists s', cropMap k cf l s = (map (recropped k (nextUrl s) cf) l, s') /\
    revoked s' = revoked s ++ match ref_get (fileReferences s) k with
                              | Some (_, old) => [old] | None => [] end /\
    fileReferences s' = ref_set (fileReferences s) k (cf, nextUrl s) /\
    nextId s' = nextId s.
Proof.
  revert s. induction l as [|a l IH]; intros s Hnd Hin; [contradiction|].
  inversion Hnd as [|x y Hnotin Hnd']; subst. simpl.
  unfold recropped at 1.
  destruct (Nat.eqb_spec (id a) k) as [E|Ne].
  - subst k. rewrite cropMap_absent by exact Hnotin.
    rewrite map_recropped_absent by exact Hnotin.
    destruct (ref_get (fileReferences s) (id a)) as [[f old]|];
      (eexists; split; [reflexivity|]); simpl; rewrite ?app_nil_r;
      repeat split; reflexivity.
  - destruct Hin as [Hin|Hin]; [contradiction|].
    destruct (IH s Hnd' Hin) as [s' [Hc Hrest]]. rewrite Hc. eauto.
Qed.

(** C10: completing a crop of an item present in a list with unique ids
    replaces that item's [url] (by a fresh object URL) and [file] (by the
    cropped file) and nothing else: its id, featured flag and other
    fields, and every other item, are unchanged. The object URL held for
    that id in the reference map, if any, is revoked exactly once and no
    other URL is revoked; the map entry for that id now holds the
    cropped file and the new URL, and no other entry changes. *)
Theorem handleCropComplete_frame (st : State) (target : MediaItem) (croppedFile : nat)
    (Hnd : NoDup (map id (images st))) (Hin : In (id target) (map id (images st))) :
  let st' := handleCropComplete (Some target) croppedFile st in
  images st' = map (recropped (id target) (nextUrl st) croppedFile) (images st) /\
  revoked st' = revoked st ++ match ref_get (fileReferences st) (id target) with
                              | Some (_, old) => [old] | None => [] end /\
  fileReferences st' = ref_set (fileReferences st) (id target) (croppedFile, nextUrl st).
Proof.
  cbv zeta. unfold handleCropComplete. simpl.
  destruct (cropMap_present (id target) croppedFile (images st)
              (snd (uuidv4 st)) Hnd Hin) as [s' [Hc [Hr [Hf _]]]].
  simpl in Hc, Hr, Hf. rewrite Hc. simpl. auto.
Qed.

Lemma handleCropComplete_frame_witness :
  let a := mkMediaItem 1 11 (Some 3) true None None None in
  let b := mkMediaItem 2 12 (Some 4) false None None None in
  let st := mkState [a; b] [(1, (3, 11)); (2, (4, 12))] false false [] 20 20 in
  (NoDup (map id (images st)) /\ In (id b) (map id (images st))) /\
  (let st' := handleCropComplete (Some b) 9 st in
   images st' = map (recropped (id b) (nextUrl st) 9) (images st) /\
   revoked st' = revoked st ++ match ref_get (fileReferences st) (id b) with
                               | Some (_, old) => [old] | None => [] end /\
   fileReferences st' = ref_set (fileReferences st) (id b) (9, nextUrl st)).
Proof.
  intros a b st.
  assert (Hnd : NoDup (map id (images st))).
  { simpl. constructor; [simpl; lia|]. constructor; [simpl; tauto|constructor]. }
  assert (Hin : In (id b) (map id (images st))) by (simpl; auto).
  split; [split; [exact Hnd|exact Hin]|].
  apply (handleCropComplete_frame st b 9 Hnd Hin).
Defined.

Lemma count_featured_app (l1 l2 : list MediaItem) :
  count_featured (l1 ++ l2) = count_featured l1 + count_featured l2.
Proof. unfold count_featured. rewrite filter_app, length_app. reflexivity. Qed.

Lemma count_featured_flags (l : list MediaItem) :
  count_featured l = length (filter (fun b => b) (map isFeatured l)).
Proof.
  unfold count_featured. induction l as [|a l IH]; simpl; [reflexivity|].
  destruct (isFeatured a); simpl; rewrite IH; reflexivity.
Qed.

Lemma filter_seq_zero (s n : nat) :
  0 < s -> filter (fun b => b) (map (fun k => Nat.eqb k 0) (seq s n)) = [].
Proof.
  revert s. induction n as [|n IH]; intros s Hs; simpl; [reflexivity|].
  destruct (Nat.eqb_spec s 0); [lia|]. apply IH. lia.
Qed.

Lemma count_id_unique (l : list MediaItem) (k : nat) :
  NoDup (map id l) -> In k (map id l) ->
  length (filter (fun img => Nat.eqb (id img) k) l) = 1.
Proof.
  induction l as [|a l IH]; simpl; intros Hnd Hin; [contradiction|].
  inversion Hnd as [|x y Hnotin Hnd']; subst.
  destruct (Nat.eqb_spec (id a) k) as [E|Ne].
  - subst k. simpl. f_equal.
    assert (Hnone : forall l0, ~ In (id a) (map id l0) ->
              filter (fun img => Nat.eqb (id img) (id a)) l0 = []).
    { induction l0 as [|c l0 IH0]; simpl; intros H; [reflexivity|].
      destruct (Nat.eqb_spec (id c) (id a)); [exfalso; auto|]. auto. }
    rewrite Hnone by exact Hnotin. reflexivity.
  - destruct Hin as [Hin|Hin]; [contradiction|]. auto.
Qed.

Lemma NoDup_map_filter (f : MediaItem -> bool) (l : list MediaItem) :
  NoDup (map id l) -> NoDup (map id (filter f l)).
Proof.
  induction l as [|a l IH]; simpl; intros Hnd; [constructor|].
  inversion Hnd as [|x y Hnotin Hnd']; subst.
  destruct (f a); simpl; [|auto]. constructor; [|auto].
  intros Hin. apply Hnotin. apply in_map_iff in Hin as [c [Hc Hin]].
  apply filter_In in Hin as [Hin _]. rewrite <- Hc. apply in_map, Hin.
Qed.

Lemma map_id_recropped (k u cf : nat) (l : list MediaItem) :
  map id (map (recropped k u cf) l) = map id l /\
  map isFeatured (map (recropped k u cf) l) = map isFeatured l.
Proof.
  induction l as [|a l [IH1 IH2]]; simpl; [split; reflexivity|].
  unfold recropped at 1 3. destruct (Nat.eqb (id a) k); simpl; rewrite IH1, IH2; split; reflexivity.
Qed.

Lemma setFeaturedImage_valid (st : State) (k : nat) :
  valid_images (images st) (nextId st) -> In k (map id (images st)) ->
  valid_images (images (setFeaturedImage k st)) (nextId (setFeaturedImage k st)).
Proof.
  intros [Hnd [Hfresh _]] Hk. unfold valid_images, setFeaturedImage, set_images; simpl.
  rewrite map_map. simpl. split; [exact Hnd|split; [exact Hfresh|]].
  unfold count_featured. rewrite filter_map_swap. simpl.
  rewrite length_map, (count_id_unique _ _ Hnd Hk).
  destruct (images st); [contradiction|reflexivity].
Qed.

Lemma find_absent (k : nat) (l : list MediaItem) :
  ~ In k (map id l) -> find (fun img => Nat.eqb (id img) k) l = None.
Proof.
  induction l as [|a l IH]; simpl; intros H; [reflexivity|].
  destruct (Nat.eqb_spec (id a) k); [exfalso; auto|]. auto.
Qed.

Lemma removeImage_fields (k : nat) (st : State) :
  images (removeImage k st) =
    match find (fun img => Nat.eqb (id img) k) (images st),
          filter (fun img => negb (Nat.eqb (id img) k)) (images st) with
    | Some r, first :: rest =>
      if isFeatured r then with_featured first true :: rest else first :: rest
    | _, rem => rem
    end /\
  nextId (removeImage k st) = nextId st.
Proof.
  unfold removeImage.
  destruct (ref_get (fileReferences st) k) as [[f u]|];
    destruct (find _ (images st)); destruct (filter _ (images st));
    split; reflexivity.
Qed.

Lemma removeImage_valid (st : State) (k : nat) :
  valid_images (images st) (nextId st) ->
  valid_images (images (removeImage k st)) (nextId (removeImage k st)).
Proof.
  intros Hv. destruct Hv as [Hnd [Hfresh Hc]].
  destruct (removeImage_fields k st) as [Himg Hnext]. rewrite Himg, Hnext. clear Himg Hnext.
  destruct (in_dec Nat.eq_dec k (map id (images st))) as [Hk|Hk].
  - apply in_map_iff in Hk as [r [<- Hr]].
    rewrite (find_unique _ _ Hnd Hr).
    destruct (filter_remove_one _ _ Hnd Hr) as [Hl Hcnt].
    pose proof (NoDup_map_filter (fun img => negb (Nat.eqb (id img) (id r))) _ Hnd) as Hndr.
    assert (Hsub : forall x, In x (map id (filter (fun img => negb (Nat.eqb (id img) (id r)))
                                              (images st))) -> In x (map id (images st))).
    { intros x Hx. apply in_map_iff in Hx as [c [<- Hx]].
      apply filter_In in Hx as [Hx _]. apply in_map, Hx. }
    destruct (filter _ (images st)) as [|f rest] eqn:Erem.
    + split; [constructor|split; [intros x []|reflexivity]].
    + destruct (isFeatured r) eqn:Efr; simpl in Hndr, Hsub |- *;
        (split; [exact Hndr|split; [intros x Hx; apply Hfresh, Hsub, Hx|]]);
        unfold count_featured in *; simpl in *;
        destruct (images st) as [|c l]; try discriminate; simpl in Hcnt.
      * simpl in Hc. destruct (isFeatured c), (isFeatured f); simpl in *; lia.
      * simpl in Hc. destruct (isFeatured c), (isFeatured f); simpl in *; lia.
  - rewrite find_absent by exact Hk. rewrite filter_keep_absent by exact Hk.
    split; [exact Hnd|split; assumption].
Qed.

Lemma handleCropComplete_valid (st : State) (t : option MediaItem) (cf : nat) :
  valid_images (images st) (nextId st) ->
  valid_images (images (handleCropComplete t cf st)) (nextId (handleCropComplete t cf st)).
Proof.
  intros [Hnd [Hfresh Hc]]. destruct t as [target|]; [|split; [exact Hnd|split; assumption]].
  unfold handleCropComplete. simpl.
  destruct (in_dec Nat.eq_dec (id target) (map id (images st))) as [Hk|Hk].
  - destruct (cropMap_present (id target) cf (images st) (snd (uuidv4 st)) Hnd Hk)
      as [s' [Hcm [_ [_ Hn]]]].
    simpl in Hcm, Hn. rewrite Hcm. simpl.
    destruct (map_id_recropped (id target) (nextUrl st) cf (images st)) as [Hid Hfl].
    unfold valid_images. rewrite Hid, Hn.
    split; [exact Hnd|split; [intros x Hx; specialize (Hfresh x Hx); lia|]].
    rewrite count_featured_flags, Hfl, <- count_featured_flags, Hc.
    destruct (images st); reflexivity.
  - rewrite cropMap_absent by exact Hk. simpl.
    split; [exact Hnd|split; [intros x Hx; specialize (Hfresh x Hx); lia|exact Hc]].
Qed.

Lemma filter_false_flags (l : list nat) :
  filter (fun b => b) (map (fun k => false && Nat.eqb k 0) l) = [].
Proof. induction l; simpl; auto. Qed.

Lemma handleFileSelect_valid (maxImages : nat) (files : list nat)
    (validate : list nat -> option ValidationResult) (st : State) :
  valid_images (images st) (nextId st) ->
  let st' := snd (handleFileSelect maxImages files validate st) in
  valid_images (images st') (nextId st').
Proof.
  intros Hv. pose proof Hv as [Hnd [Hfresh Hc]]. cbv zeta.
  unfold handleFileSelect, handleFileSelect_begin.
  destruct files as [|f0 fs]; [exact Hv|].
  destruct (processingQueue st); [exact Hv|].
  destruct (slice0 _ _) as [|g gs]; [exact Hv|].
  unfold handleFileSelect_end. simpl capImages.
  destruct (validate _) as [vr|]; [|exact Hv].
  destruct (validFiles vr) as [|v vs]; [exact Hv|].
  pose proof (newImages_shape (Nat.eqb (length (images st)) 0) vr 0 (v :: vs)
                (set_processing st true)) as Hshape.
  destruct (newImages _ vr 0 (v :: vs) _) as [items st1].
  destruct Hshape as [_ [Hid [Hfl [Hn _]]]]. simpl in Hn. simpl snd.
  change (nextId (set_processing st true)) with (nextId st) in Hid.
  unfold valid_images. simpl images. simpl nextId. rewrite Hn.
  split; [|split].
  - rewrite map_app, Hid. apply NoDup_app; [exact Hnd|apply seq_NoDup|].
    intros x Hx Hin. apply in_seq in Hin. specialize (Hfresh x Hx). lia.
  - intros x Hx. rewrite map_app, Hid in Hx. apply in_app_or in Hx as [Hx|Hx].
    + specialize (Hfresh x Hx). lia.
    + apply in_seq in Hx. simpl in Hx. lia.
  - rewrite count_featured_app, (count_featured_flags items), Hfl, Hc.
    destruct (images st) as [|c l]; simpl.
    + destruct items; [simpl in Hid; discriminate Hid|].
      rewrite filter_seq_zero by lia. reflexivity.
    + rewrite filter_false_flags. destruct (l ++ items); reflexivity.
Qed.

End MediaProofs.

(* ===================================================================== *)
(** * Featured-flag invariant under interleaving: proofs                  *)
(* ===================================================================== *)

Module SharedProofs.

Import MediaManager SharedHeap.
Local Open Scope nat_scope.

(** C1 (code defect): the "exactly one featured item" invariant is not
    preserved by the operations of the component. Start from two items,
    the first featured. Drop one file: [handleFileSelect] captures the
    array [images] and awaits the validator. Meanwhile remove the featured
    item (its remove button stays enabled): the list shown becomes the
    second item, promoted by writing [isFeatured = true] into its object,
    which the captured array shares. When the validator resolves the
    addition commits [[...images, ...newImages]] from the captured array,
    and the resulting list of three items has two featured items. *)
Theorem featured_invariant_broken_by_interleaved_removal :
  let a := mkMediaItem 1 100 None true None None None in
  let b := mkMediaItem 2 101 None false None None None in
  let st0 := mkHState [a; b] [0; 1] false false 200 10 in
  let vr := mkValidationResult [7] [] [] (fun _ => Some 5) (fun _ => Some 6)
              (fun _ => Some 7) in
  count_featured (view st0) = 1 /\ NoDup (map id (view st0)) /\
  match SharedHeap.handleFileSelect_begin 10 [7] st0 with
  | HInFlight p st1 =>
    let st2 := SharedHeap.removeImage 1 st1 in
    map id (view st2) = [2] /\ count_featured (view st2) = 1 /\
    let st3 := SharedHeap.handleFileSelect_end p (Some vr) st2 in
    map id (view st3) = [1; 2; 10] /\ count_featured (view st3) = 2
  | _ => False
  end.
Proof.
  cbv zeta. split; [reflexivity|]. split.
  - simpl. constructor; [simpl; lia|]. constructor; [simpl; tauto|constructor].
  - vm_compute. repeat split.
Qed.

(** The same interleaving without shared objects (the value semantics of
    [MediaManager], where the promotion builds a new item) commits the
    captured items unchanged and keeps exactly one featured item: the
    second featured item above comes from the in-place write. *)
Lemma interleaved_removal_value_semantics :
  let a := mkMediaItem 1 100 None true None None None in
  let b := mkMediaItem 2 101 None false None None None in
  let st0 := mkState [a; b] [] false false [] 200 10 in
  let vr := mkValidationResult [7] [] [] (fun _ => Some 5) (fun _ => Some 6)
              (fun _ => Some 7) in
  match MediaManager.handleFileSelect_begin 10 [7] st0 with
  | InFlight p st1 =>
    let st2 := MediaManager.removeImage 1 st1 in
    let st3 := snd (MediaManager.handleFileSelect_end p (Some vr) st2) in
    map id (images st3) = [1; 2; 10] /\ count_featured (images st3) = 1
  | _ => False
  end.
Proof. vm_compute. split; reflexivity. Qed.

Lemma nth_upd_same {A} (h : list A) (n : nat) (x d : A) :
  n < length h -> nth n (upd h n x) d = x.
Proof.
  revert n. induction h as [|y h IH]; intros n Hn; simpl in Hn; [lia|].
  destruct n; simpl; [reflexivity|]. apply IH. lia.
Qed.

Lemma nth_upd_other {A} (h : list A) (n m : nat) (x d : A) :
  m <> n -> nth m (upd h n x) d = nth m h d.
Proof.
  revert n m. induction h as [|y h IH]; intros n m Hne; simpl; [reflexivity|].
  destruct n, m; simpl; try reflexivity; [lia|]. apply IH. lia.
Qed.

Lemma find_map_deref (f : MediaItem -> bool) (g : nat -> MediaItem) (l : list nat) :
  find f (map g l) = option_map g (find (fun x => f (g x)) l).
Proof.
  induction l as [|a l IH]; simpl; [reflexivity|]. destruct (f (g a)); [reflexivity|exact IH].
Qed.

(** In sequential use the object model and the value model of
    [removeImage] agree: when the list holds distinct objects, the items
    the host sees after the heap version are those of the value version. *)
Lemma removeImage_refines (k : nat) (st : HState) (vst : State) :
  NoDup (himages st) -> Forall (fun l => l < length (heap st)) (himages st) ->
  images vst = view st ->
  view (SharedHeap.removeImage k st) = images (MediaManager.removeImage k vst).
Proof.
  intros Hnd Hb Hv.
  destruct (MediaProofs.removeImage_fields k vst) as [Himg _]. rewrite Himg, Hv. clear Himg.
  unfold view, SharedHeap.removeImage.
  rewrite find_map_deref, filter_map_swap.
  destruct (find (fun x => Nat.eqb (id (deref st x)) k) (himages st)) as [r|]; simpl;
    [|destruct (filter _ (himages st)); reflexivity].
  assert (Hsub : forall x, In x (filter (fun l => negb (Nat.eqb (id (deref st l)) k)) (himages st)) ->
                           In x (himages st)) by (intros x Hx; apply filter_In in Hx; apply Hx).
  assert (Hnd' : NoDup (filter (fun l => negb (Nat.eqb (id (deref st l)) k)) (himages st)))
    by (apply NoDup_filter, Hnd).
  destruct (filter _ (himages st)) as [|first rest]; simpl; [reflexivity|].
  destruct (isFeatured (deref st r)); simpl; [|reflexivity].
  unfold deref at 1 3; simpl. rewrite nth_upd_same.
  2:{ rewrite Forall_forall in Hb. apply Hb, Hsub. left; reflexivity. }
  f_equal. apply map_ext_in. intros x Hx. unfold deref; simpl. apply nth_upd_other.
  intros ->. inversion Hnd'. contradiction.
Qed.

End SharedProofs.

(* ===================================================================== *)
(** * Media Manager: object-URL lifecycle                                 *)
(* ===================================================================== *)

Module LifecycleProofs.

Import MediaManager.
Local Open Scope nat_scope.

Lemma ref_get_none_keys (m : RefMap) (k : nat) :
  ref_get m k = None <-> ~ In k (ref_keys m).
Proof.
  induction m as [|[k' v] r IH]; simpl; [tauto|].
  destruct (Nat.eqb_spec k k') as [->|Ne]; [split; [discriminate|tauto]|].
  rewrite IH. intuition.
Qed.

Lemma ref_set_absent (m : RefMap) (k : nat) (v : nat * nat) :
  ref_get m k = None -> ref_set m k v = m ++ [(k, v)].
Proof.
  induction m as [|[k' v'] r IH]; simpl; [reflexivity|].
  destruct (Nat.eqb k k'); [discriminate|]. intros H. rewrite IH by exact H. reflexivity.
Qed.

Lemma ref_set_present (m : RefMap) (k f' old f u : nat) :
  ref_get m k = Some (f', old) ->
  ref_keys (ref_set m k (f, u)) = ref_keys m /\
  Permutation (old :: ref_urls (ref_set m k (f, u))) (u :: ref_urls m).
Proof.
  induction m as [|[k' [g w]] r IH]; simpl; [discriminate|].
  destruct (Nat.eqb_spec k k') as [->|Ne].
  - intros H. injection H as -> ->. split; [reflexivity|]. simpl. apply perm_swap.
  - intros H. destruct (IH H) as [Hk Hp]. simpl. rewrite Hk. split; [reflexivity|].
    eapply perm_trans; [apply perm_swap|].
    eapply perm_trans; [apply perm_skip, Hp|]. apply perm_swap.
Qed.

Lemma ref_delete_present (m : RefMap) (k f u : nat) :
  NoDup (ref_keys m) -> ref_get m k = Some (f, u) ->
  NoDup (ref_keys (ref_delete m k)) /\
  incl (ref_keys (ref_delete m k)) (ref_keys m) /\
  Permutation (u :: ref_urls (ref_delete m k)) (ref_urls m).
Proof.
  induction m as [|[k' [g w]] r IH]; simpl; [discriminate|].
  intros Hnd. inversion Hnd as [|x y Hnotin Hnd']; subst.
  destruct (Nat.eqb_spec k k') as [->|Ne].
  - intros H. injection H as -> ->. split; [exact Hnd'|].
    split; [intros x Hx; right; exact Hx|reflexivity].
  - intros H. destruct (IH Hnd' H) as [Hd [Hi Hp]]. simpl. split; [|split].
    + constructor; [|exact Hd]. intros Hx. apply Hnotin, Hi, Hx.
    + intros x [Hx|Hx]; [left; exact Hx|right; apply Hi, Hx].
    + eapply perm_trans; [apply perm_swap|]. apply perm_skip, Hp.
Qed.

Lemma seq_extend (u0 n : nat) :
  u0 <= n -> seq u0 (S n - u0) = seq u0 (n - u0) ++ [n].
Proof.
  intros H. replace (S n - u0) with (S (n - u0)) by lia.
  rewrite seq_S. f_equal. f_equal. lia.
Qed.

(** Storing a fresh object URL under a drawn key, after revoking the URL
    the key held, keeps the bookkeeping. *)
Lemma accounting_put (u0 : nat) (s s' : State) (k f : nat) :
  url_accounting u0 s -> k < nextId s' -> nextId s <= nextId s' ->
  fileReferences s' = ref_set (fileReferences s) k (f, nextUrl s) ->
  nextUrl s' = S (nextUrl s) ->
  revoked s' = revoked s ++ match ref_get (fileReferences s) k with
                            | Some (_, old) => [old] | None => [] end ->
  url_accounting u0 s'.
Proof.
  intros [Hnd [Hlt [Hle Hp]]] Hk Hid Hf Hu Hr.
  unfold url_accounting. rewrite Hf, Hu, Hr, (seq_extend _ _ Hle).
  destruct (ref_get (fileReferences s) k) as [[f' old]|] eqn:E.
  - destruct (ref_set_present _ _ _ _ f (nextUrl s) E) as [Hk' Hp'].
    rewrite Hk'. split; [exact Hnd|]. split.
    { eapply Forall_impl; [|exact Hlt]. simpl. intros a Ha. lia. }
    split; [lia|].
    rewrite <- app_assoc. simpl.
    eapply perm_trans; [apply Permutation_app_head, Hp'|].
    eapply perm_trans; [apply Permutation_sym, Permutation_middle|].
    apply Permutation_app_tail with (tl := [nextUrl s]) in Hp.
    eapply perm_trans; [apply Permutation_cons_append|].
    exact Hp.
  - rewrite ref_set_absent by exact E. rewrite app_nil_r.
    apply ref_get_none_keys in E.
    unfold ref_keys, ref_urls in *. rewrite !map_app. simpl.
    split; [|split; [|split]].
    + apply NoDup_app; [exact Hnd|constructor; [intros []|constructor]|].
      intros x Hx [<-|[]]. contradiction.
    + apply Forall_app. split; [|constructor; [simpl; lia|constructor]].
      eapply Forall_impl; [|exact Hlt]. simpl. intros a Ha. lia.
    + lia.
    + rewrite app_assoc. apply Permutation_app_tail, Hp.
Qed.

(** An event that leaves the map, the revocations and the URL counter
    alone keeps the bookkeeping. *)
Lemma accounting_frame (u0 : nat) (s s' : State) :
  url_accounting u0 s -> fileReferences s' = fileReferences s ->
  revoked s' = revoked s -> nextUrl s' = nextUrl s -> nextId s <= nextId s' ->
  url_accounting u0 s'.
Proof.
  intros [Hnd [Hlt [Hle Hp]]] Hf Hr Hu Hid. unfold url_accounting.
  rewrite Hf, Hr, Hu. repeat split; try assumption.
  eapply Forall_impl; [|exact Hlt]. simpl. intros a Ha. lia.
Qed.

Lemma newImages_accounting (u0 : nat) (capEmpty : bool) (vr : ValidationResult)
    (index : nat) (vfs : list nat) (s : State) :
  url_accounting u0 s ->
  url_accounting u0 (snd (newImages capEmpty vr index vfs s)) /\
  nextId s <= nextId (snd (newImages capEmpty vr index vfs s)) /\
  Forall (fun img => id img < nextId (snd (newImages capEmpty vr index vfs s)))
         (fst (newImages capEmpty vr index vfs s)) /\
  images (snd (newImages capEmpty vr index vfs s)) = images s.
Proof.
  revert index s. induction vfs as [|f rest IH]; intros index s Hs; simpl;
    [split; [exact Hs|split; [lia|split; [constructor|reflexivity]]]|].
  set (s3 := set_refs _ _).
  assert (H3 : url_accounting u0 s3).
  { pose proof Hs as [_ [Hlt _]].
    apply (accounting_put u0 s s3 (nextId s) f Hs); simpl; try lia; try reflexivity.
    destruct (ref_get (fileReferences s) (nextId s)) as [[g w]|] eqn:E; [|symmetry; apply app_nil_r].
    exfalso. assert (Hin : In (nextId s) (ref_keys (fileReferences s))).
    { destruct (ref_get_none_keys (fileReferences s) (nextId s)) as [_ Hc].
      destruct (in_dec Nat.eq_dec (nextId s) (ref_keys (fileReferences s))) as [i|n];
        [exact i|rewrite Hc in E by exact n; discriminate]. }
    rewrite Forall_forall in Hlt. specialize (Hlt _ Hin). lia. }
  destruct (IH (S index) s3 H3) as [Ha [Hb [Hc Hd]]].
  destruct (newImages capEmpty vr (S index) rest s3) as [items s4]; simpl in *.
  split; [exact Ha|]. split; [lia|]. split; [|exact Hd].
  constructor; [simpl; lia|exact Hc].
Qed.

Lemma cropMap_accounting (u0 k cf : nat) (l : list MediaItem) (s : State) :
  url_accounting u0 s -> Forall (fun img => id img < nextId s) l ->
  url_accounting u0 (snd (cropMap k cf l s)) /\
  nextId (snd (cropMap k cf l s)) = nextId s /\
  map id (fst (cropMap k cf l s)) = map id l /\
  images (snd (cropMap k cf l s)) = images s.
Proof.
  revert s. induction l as [|img rest IH]; intros s Hs Hl; simpl; [auto|].
  inversion Hl as [|x y Himg Hrest]; subst.
  destruct (Nat.eqb (id img) k).
  - set (s1 := match ref_get (fileReferences s) (id img) with
               | Some (_, u) => revokeObjectURL u s | None => s end).
    assert (E1 : fileReferences s1 = fileReferences s /\ nextUrl s1 = nextUrl s /\
                 nextId s1 = nextId s /\ images s1 = images s /\
                 revoked s1 = revoked s ++ match ref_get (fileReferences s) (id img) with
                                           | Some (_, old) => [old] | None => [] end).
    { unfold s1. destruct (ref_get (fileReferences s) (id img)) as [[g w]|];
        simpl; rewrite ?app_nil_r; auto. }
    destruct E1 as [F1 [U1 [I1 [M1 R1]]]].
    unfold createObjectURL.
    match goal with |- context [cropMap k cf rest ?x] => set (s3 := x) end.
    assert (H3 : url_accounting u0 s3).
    { apply (accounting_put u0 s s3 (id img) cf Hs); unfold s3; simpl;
        rewrite ?F1, ?U1, ?I1, ?R1; reflexivity || lia. }
    assert (I3 : nextId s3 = nextId s) by (unfold s3; simpl; exact I1).
    rewrite <- I3 in Hrest.
    destruct (IH s3 H3 Hrest) as [Ha [Hb [Hc Hd]]].
    destruct (cropMap k cf rest s3) as [r s4]; cbn [fst snd] in Ha, Hb, Hc, Hd |- *.
    split; [exact Ha|]. split; [congruence|]. split; [simpl; f_equal; exact Hc|].
    rewrite Hd. unfold s3. simpl. exact M1.
  - destruct (IH s Hs Hrest) as [Ha [Hb [Hc Hd]]].
    destruct (cropMap k cf rest s) as [r s4]; simpl in *.
    split; [exact Ha|split; [exact Hb|split; [simpl; f_equal; exact Hc|exact Hd]]].
Qed.

Lemma removeImage_accounting (u0 k : nat) (s : State) :
  url_accounting u0 s -> url_accounting u0 (removeImage k s).
Proof.
  intros Hs. unfold removeImage.
  destruct (ref_get (fileReferences s) k) as [[f u]|] eqn:E.
  - destruct Hs as [Hnd [Hlt [Hle Hp]]].
    destruct (ref_delete_present _ _ _ _ Hnd E) as [Hd [Hi Hperm]].
    unfold url_accounting; simpl. split; [exact Hd|]. split.
    + rewrite Forall_forall in *. intros x Hx. apply Hlt, Hi, Hx.
    + split; [exact Hle|]. rewrite <- app_assoc. simpl.
      eapply perm_trans; [apply Permutation_app_head, Hperm|exact Hp].
  - apply (accounting_frame u0 s); simpl; [exact Hs|reflexivity..].
Qed.

Lemma ids_below (l l' : list MediaItem) (n n' : nat) :
  incl (map id l') (map id l) -> n <= n' ->
  Forall (fun img => id img < n) l -> Forall (fun img => id img < n') l'.
Proof.
  intros Hi Hn Hl. rewrite Forall_forall in *. intros x Hx.
  assert (Hm : In (id x) (map id l)) by (apply Hi, in_map, Hx).
  apply in_map_iff in Hm as [y [Hy Hy']]. rewrite <- Hy. specialize (Hl y Hy'). lia.
Qed.

Lemma removeImage_ids (k : nat) (s : State) :
  incl (map id (images (removeImage k s))) (map id (images s)) /\
  nextId (removeImage k s) = nextId s.
Proof.
  destruct (MediaProofs.removeImage_fields k s) as [Hi Hn]. rewrite Hi. split; [|exact Hn].
  remember (filter (fun img => negb (Nat.eqb (id img) k)) (images s)) as rem eqn:Er.
  assert (Hf : incl (map id rem) (map id (images s))).
  { subst rem. intros x Hx. apply in_map_iff in Hx as [y [<- Hy]].
    apply filter_In in Hy. apply in_map, Hy. }
  destruct (find _ (images s)) as [r|]; destruct rem as [|first rest]; try exact Hf.
  destruct (isFeatured r); exact Hf.
Qed.

Lemma handleFileSelect_begin_states (maxImages : nat) (files : list nat) (st : State) :
  (forall p st', handleFileSelect_begin maxImages files st = InFlight p st' ->
                 st' = set_processing st true) /\
  (forall ts st', handleFileSelect_begin maxImages files st = Finished ts st' ->
                  st' = set_processing (set_processing st true) false).
Proof.
  unfold handleFileSelect_begin. destruct files as [|f fs]; [split; discriminate|].
  destruct (processingQueue st); [split; discriminate|].
  destruct (slice0 _ _); split; intros ? ? H;
    (discriminate H || (injection H; intros; subst; reflexivity)).
Qed.

Lemma handleFileSelect_end_some (p : Pending) (v : ValidationResult) (st : State)
    (f : nat) (r : list nat) :
  validFiles v = f :: r ->
  snd (handleFileSelect_end p (Some v) st) =
    let (items, st1) := newImages (Nat.eqb (length (capImages p)) 0) v 0 (f :: r) st in
    set_processing (set_images st1 (capImages p ++ items)) false.
Proof.
  intros E. unfold handleFileSelect_end. rewrite E.
  destruct (newImages _ v 0 (f :: r) st); reflexivity.
Qed.

(** Every event keeps the bookkeeping, and keeps the ids of the list
    below the next fresh id. *)
Lemma event_accounting (u0 : nat) (st st' : State) :
  event st st' -> url_accounting u0 st ->
  Forall (fun img => id img < nextId st) (images st) ->
  url_accounting u0 st' /\ Forall (fun img => id img < nextId st') (images st').
Proof.
  intros Hev Hs Hi. destruct Hev as [m fs st p st' E|m fs st ts st' E|p vr st Hcap|k st|k st|t cf st].
  - apply (proj1 (handleFileSelect_begin_states m fs st)) in E. subst st'.
    split; [apply (accounting_frame u0 st); simpl; reflexivity || exact Hs|exact Hi].
  - apply (proj2 (handleFileSelect_begin_states m fs st)) in E. subst st'.
    split; [apply (accounting_frame u0 st); simpl; reflexivity || exact Hs|exact Hi].
  - destruct vr as [v|];
      [|unfold handleFileSelect_end; simpl;
        split; [apply (accounting_frame u0 st); simpl; reflexivity || exact Hs|exact Hi]].
    destruct (validFiles v) as [|f r] eqn:Ev.
    { unfold handleFileSelect_end; rewrite Ev; simpl.
      split; [apply (accounting_frame u0 st); simpl; reflexivity || exact Hs|exact Hi]. }
    rewrite (handleFileSelect_end_some p v st f r Ev).
    destruct (newImages_accounting u0 (Nat.eqb (length (capImages p)) 0) v 0 (f :: r) st Hs)
      as [A [B [C _]]].
    destruct (newImages _ v 0 (f :: r) st) as [items st1]; simpl in *.
    split; [apply (accounting_frame u0 st1); simpl; reflexivity || lia || exact A|].
    apply Forall_app. split; [|exact C].
    apply (ids_below (capImages p) _ (nextId st)); [intros x Hx; exact Hx|exact B|exact Hcap].
  - destruct (removeImage_ids k st) as [Hk Hn]. split; [apply removeImage_accounting, Hs|].
    rewrite Hn. apply (ids_below (images st) _ (nextId st)); [exact Hk|lia|exact Hi].
  - split; [apply (accounting_frame u0 st); simpl; reflexivity || exact Hs|].
    apply (ids_below (images st) _ (nextId st)); [|simpl; lia|exact Hi].
    unfold setFeaturedImage, set_images; simpl. rewrite map_map. simpl. intros x Hx; exact Hx.
  - unfold handleCropComplete. destruct t as [target|]; [|split; [exact Hs|exact Hi]].
    simpl.
    assert (Hs0 : url_accounting u0 (snd (uuidv4 st)))
      by (apply (accounting_frame u0 st); simpl; reflexivity || lia || exact Hs).
    assert (Hi0 : Forall (fun img => id img < nextId (snd (uuidv4 st))) (images (snd (uuidv4 st))))
      by (apply (ids_below (images st) _ (nextId st)); simpl; [intros x Hx; exact Hx|lia|exact Hi]).
    destruct (cropMap_accounting u0 (id target) cf _ _ Hs0 Hi0) as [A [B [C _]]].
    simpl in A, B, C.
    destruct (cropMap (id target) cf _ _) as [r s4]; simpl in *.
    split; [apply (accounting_frame u0 s4); simpl; reflexivity || lia || exact A|].
    apply (ids_below (images st) _ (S (nextId st))); [|lia|].
    + rewrite C. intros x Hx; exact Hx.
    + eapply ids_below; [intros x Hx; exact Hx| |exact Hi]. lia.
Qed.

Lemma run_accounting (u0 : nat) (st st' : State) :
  run st st' -> url_accounting u0 st ->
  Forall (fun img => id img < nextId st) (images st) ->
  url_accounting u0 st'.
Proof.
  induction 1 as [st|st1 st2 st3 Hev Hrun IH]; intros Hs Hi; [exact Hs|].
  destruct (event_accounting u0 st1 st2 Hev Hs Hi) as [A B]. exact (IH A B).
Qed.

Lemma NoDup_app_disjoint (l l' : list nat) (a : nat) :
  NoDup (l ++ l') -> In a l -> ~ In a l'.
Proof.
  induction l as [|x l IH]; simpl; [tauto|].
  intros Hnd [<-|Ha] Ha'; inversion Hnd as [|y z Hn Hnd']; subst.
  - apply Hn, in_or_app. right; exact Ha'.
  - exact (IH Hnd' Ha Ha').
Qed.

(** From a mount with an empty reference map, whatever events follow and
    in whatever order (additions in flight included), no object URL is
    revoked twice, no URL still held by the map has been revoked, and the
    unmount cleanup leaves every object URL the component created up to
    the unmount revoked exactly once. The ids the host passes in are taken
    to be distinct from the ids [uuidv4] draws. URLs created by an
    addition that completes after the unmount are not covered: see
    [addition_after_unmount_leaks]. *)
Theorem object_urls_released_once (st0 st : State) :
  fileReferences st0 = [] -> revoked st0 = [] ->
  Forall (fun img => id img < nextId st0) (images st0) ->
  run st0 st ->
  NoDup (revoked st) /\
  (forall u, In u (ref_urls (fileReferences st)) -> ~ In u (revoked st)) /\
  Permutation (revoked (unmountCleanup st)) (seq (nextUrl st0) (nextUrl st - nextUrl st0)).
Proof.
  intros Hf Hr Hi Hrun.
  assert (H0 : url_accounting (nextUrl st0) st0).
  { unfold url_accounting. rewrite Hf, Hr. simpl. rewrite Nat.sub_diag. simpl.
    repeat split; constructor. }
  destruct (run_accounting _ _ _ Hrun H0 Hi) as [_ [_ [_ Hp]]].
  assert (Hnd : NoDup (revoked st ++ ref_urls (fileReferences st)))
    by (apply (Permutation_NoDup (Permutation_sym Hp)), seq_NoDup).
  split; [exact (NoDup_app_remove_r _ _ Hnd)|]. split; [|exact Hp].
  intros u Hu Hu'. exact (NoDup_app_disjoint _ _ _ Hnd Hu' Hu).
Qed.

Lemma object_urls_released_once_witness :
  let st0 := mkState [] [] false false [] 10 10 in
  let vr := mkValidationResult [7; 8] [] [] (fun _ => None) (fun _ => None) (fun _ => None) in
  let st1 := set_processing st0 true in
  let st2 := snd (handleFileSelect_end (mkPending [] [7; 8]) (Some vr) st1) in
  let st3 := handleCropComplete (Some (mkMediaItem 10 10 (Some 7) true None None None)) 9 st2 in
  let st := removeImage 11 st3 in
  (revoked st = [10; 11] /\ ref_urls (fileReferences st) = [12] /\ nextUrl st = 13 /\
   revoked (unmountCleanup st) = [10; 11; 12]) /\
  fileReferences st0 = [] /\ revoked st0 = [] /\
  Forall (fun img => id img < nextId st0) (images st0) /\ run st0 st /\
  (NoDup (revoked st) /\
   (forall u, In u (ref_urls (fileReferences st)) -> ~ In u (revoked st)) /\
   Permutation (revoked (unmountCleanup st)) (seq (nextUrl st0) (nextUrl st - nextUrl st0))).
Proof.
  intros st0 vr st1 st2 st3 st.
  assert (Hrun : run st0 st).
  { apply (run_step _ st1);
      [apply (ev_begin 10 [7; 8] st0 (mkPending [] [7; 8]) st1); reflexivity|].
    apply (run_step _ st2); [apply ev_end; constructor|].
    apply (run_step _ st3); [apply ev_crop|].
    apply (run_step _ st); [apply ev_remove|apply run_done]. }
  assert (Hi : Forall (fun img => id img < nextId st0) (images st0)) by constructor.
  split; [vm_compute; repeat split; reflexivity|].
  split; [reflexivity|split; [reflexivity|split; [exact Hi|split; [exact Hrun|]]]].
  exact (object_urls_released_once st0 st eq_refl eq_refl Hi Hrun).
Defined.

Lemma newImages_fresh (capEmpty : bool) (vr : ValidationResult) (index : nat)
    (vfs : list nat) (s : State) :
  Forall (fun k => k < nextId s) (ref_keys (fileReferences s)) ->
  revoked (snd (newImages capEmpty vr index vfs s)) = revoked s /\
  nextUrl (snd (newImages capEmpty vr index vfs s)) = nextUrl s + length vfs /\
  ref_urls (fileReferences (snd (newImages capEmpty vr index vfs s))) =
    ref_urls (fileReferences s) ++ seq (nextUrl s) (length vfs).
Proof.
  revert index s. induction vfs as [|f rest IH]; intros index s Hk; simpl.
  - rewrite app_nil_r. repeat split; lia.
  - set (s3 := set_refs _ _).
    assert (E : ref_get (fileReferences s) (nextId s) = None).
    { apply ref_get_none_keys. intros Hin. rewrite Forall_forall in Hk.
      specialize (Hk _ Hin). lia. }
    assert (Hf : fileReferences s3 = fileReferences s ++ [(nextId s, (f, nextUrl s))])
      by (unfold s3; simpl; apply ref_set_absent, E).
    assert (Hk3 : Forall (fun k => k < nextId s3) (ref_keys (fileReferences s3))).
    { rewrite Hf. unfold ref_keys. rewrite map_app. apply Forall_app. split.
      - eapply Forall_impl; [|exact Hk]. simpl. intros a Ha. lia.
      - constructor; [simpl; lia|constructor]. }
    destruct (IH (S index) s3 Hk3) as [A [B C]].
    destruct (newImages capEmpty vr (S index) rest s3) as [items s4]; simpl in *.
    split; [exact A|]. split; [rewrite B; simpl; lia|].
    rewrite C, Hf. unfold ref_urls. rewrite map_app, <- app_assoc. reflexivity.
Qed.

(** The cleanup runs once, on unmount, and only sees the map as it is
    then. An addition still awaiting the validator at that moment
    completes afterwards: it creates one object URL per accepted file and
    stores it in the map, and none of these URLs is revoked, by the
    cleanup (already run) or otherwise. *)
Theorem addition_after_unmount_leaks (st0 st : State) (p : Pending) (vr : ValidationResult) :
  fileReferences st0 = [] -> revoked st0 = [] ->
  Forall (fun img => id img < nextId st0) (images st0) ->
  run st0 st -> validFiles vr <> [] ->
  let su := unmountCleanup st in
  let st' := snd (handleFileSelect_end p (Some vr) su) in
  revoked st' = revoked su /\
  nextUrl st' = nextUrl st + length (validFiles vr) /\
  (forall u, nextUrl st <= u < nextUrl st' ->
             In u (ref_urls (fileReferences st')) /\ ~ In u (revoked st')).
Proof.
  intros Hf Hr Hi Hrun Hv. cbv zeta.
  assert (H0 : url_accounting (nextUrl st0) st0).
  { unfold url_accounting. rewrite Hf, Hr. simpl. rewrite Nat.sub_diag. simpl.
    repeat split; constructor. }
  destruct (run_accounting _ _ _ Hrun H0 Hi) as [_ [Hk [Hle Hp]]].
  destruct (validFiles vr) as [|f r] eqn:Ev; [congruence|].
  rewrite (handleFileSelect_end_some p vr (unmountCleanup st) f r Ev).
  destruct (newImages_fresh (Nat.eqb (length (capImages p)) 0) vr 0 (f :: r)
              (unmountCleanup st) Hk) as [A [B C]].
  destruct (newImages _ vr 0 (f :: r) (unmountCleanup st)) as [items s1].
  cbn [fst snd unmountCleanup set_processing set_images revoked nextUrl fileReferences] in *.
  split; [exact A|]. split; [exact B|].
  intros u Hu. cbn [nextUrl set_processing set_images] in Hu. rewrite B in Hu.
  simpl length in *. split.
  - rewrite C. apply in_or_app. right. apply in_seq. simpl length. lia.
  - rewrite A. intros Hin.
    assert (Hs : In u (seq (nextUrl st0) (nextUrl st - nextUrl st0)))
      by (apply (Permutation_in _ Hp); exact Hin).
    apply in_seq in Hs. lia.
Qed.

Lemma addition_after_unmount_leaks_witness :
  let st0 := mkState [] [] false false [] 10 10 in
  let st := set_processing st0 true in
  let p := mkPending [] [7] in
  let vr := mkValidationResult [7] [] [] (fun _ => None) (fun _ => None) (fun _ => None) in
  (fileReferences st0 = [] /\ revoked st0 = [] /\
   Forall (fun img => id img < nextId st0) (images st0) /\ run st0 st /\ validFiles vr <> []) /\
  (let su := unmountCleanup st in
   let st' := snd (handleFileSelect_end p (Some vr) su) in
   revoked st' = revoked su /\
   nextUrl st' = nextUrl st + length (validFiles vr) /\
   (forall u, nextUrl st <= u < nextUrl st' ->
              In u (ref_urls (fileReferences st')) /\ ~ In u (revoked st'))).
Proof.
  intros st0 st p vr.
  assert (Hrun : run st0 st).
  { apply (run_step _ st); [|apply run_done].
    apply (ev_begin 10 [7] st0 p st). reflexivity. }
  assert (Hv : validFiles vr <> []) by discriminate.
  assert (Hi : Forall (fun img => id img < nextId st0) (images st0)) by constructor.
  split; [repeat split; try reflexivity; assumption|].
  exact (addition_after_unmount_leaks st0 st p vr eq_refl eq_refl Hi Hrun Hv).
Defined.

End LifecycleProofs.

(* ===================================================================== *)
(** * Media Manager: limits, lock release and missing ids                 *)
(* ===================================================================== *)

Module MediaEdgeProofs.

Import MediaManager.
Local Open Scope nat_scope.

(** [handleFileSelect] on a list already at or over [maxImages]: at the
    limit, [slice(0, 0)] is empty and the addition stops with the limit
    toast; over it, [remainingSlots] is negative and [slice(0, remainingSlots)]
    drops only the last [images.length - maxImages] files, so the rest
    still go to the validator and can be added. *)
Theorem handleFileSelect_begin_at_or_over_limit (maxImages : nat) (files : list nat)
    (st : State) :
  processingQueue st = false -> files <> [] -> maxImages <= length (images st) ->
  handleFileSelect_begin maxImages files st =
    if Nat.eqb (length (images st)) maxImages
    then Finished [ToastLimit] (set_processing (set_processing st true) false)
    else match firstn (length files - (length (images st) - maxImages)) files with
         | [] => Finished [ToastLimit] (set_processing (set_processing st true) false)
         | fs => InFlight (mkPending (images st) fs) (set_processing st true)
         end.
Proof.
  intros Hq Hf Hle. unfold handleFileSelect_begin.
  destruct files as [|f0 fs0]; [contradiction|]. rewrite Hq. unfold slice0.
  destruct (Nat.eqb_spec (length (images st)) maxImages) as [E|Ne].
  - rewrite E, Z.sub_diag. reflexivity.
  - assert (Hlt : (Z.of_nat maxImages - Z.of_nat (length (images st)) <? 0)%Z = true)
      by (apply Z.ltb_lt; lia).
    rewrite Hlt.
    replace (Z.to_nat (Z.of_nat (length (f0 :: fs0))
                       + (Z.of_nat maxImages - Z.of_nat (length (images st)))))
      with (length (f0 :: fs0) - (length (images st) - maxImages)) by lia.
    destruct (firstn _ (f0 :: fs0)); reflexivity.
Qed.

Lemma handleFileSelect_begin_at_or_over_limit_witness :
  let st := mkState [mkMediaItem 1 11 None true None None None;
                     mkMediaItem 2 12 None false None None None;
                     mkMediaItem 3 13 None false None None None] [] false false [] 20 20 in
  (processingQueue st = false /\ [4; 5; 6] <> [] /\ 2 <= length (images st)) /\
  handleFileSelect_begin 2 [4; 5; 6] st =
    if Nat.eqb (length (images st)) 2
    then Finished [ToastLimit] (set_processing (set_processing st true) false)
    else match firstn (length [4; 5; 6] - (length (images st) - 2)) [4; 5; 6] with
         | [] => Finished [ToastLimit] (set_processing (set_processing st true) false)
         | fs => InFlight (mkPending (images st) fs) (set_processing st true)
         end.
Proof.
  intros st. split; [split; [reflexivity|split; [discriminate|simpl; lia]]|].
  apply handleFileSelect_begin_at_or_over_limit; [reflexivity|discriminate|simpl; lia].
Defined.

(** An addition that is not refused as busy always ends with both busy
    flags cleared (the [finally] block), and one that adds nothing (the
    limit is reached, the validator throws or accepts no file) changes
    nothing else. *)
Theorem handleFileSelect_releases_lock (maxImages : nat) (files : list nat)
    (validate : list nat -> option ValidationResult) (st : State) :
  processingQueue st = false -> files <> [] ->
  let st' := snd (handleFileSelect maxImages files validate st) in
  processingQueue st' = false /\ isProcessing st' = false /\
  ((forall fs, match validate fs with None => True | Some vr => validFiles vr = [] end) ->
   st' = set_processing st false).
Proof.
  intros Hq Hf. cbv zeta. unfold handleFileSelect, handleFileSelect_begin.
  destruct files as [|f0 fs0]; [contradiction|]. rewrite Hq.
  destruct (slice0 (f0 :: fs0) _) as [|x xs]; [simpl; auto|].
  cbv beta iota. unfold handleFileSelect_end. simpl filesToAdd.
  destruct (validate (x :: xs)) as [vr|] eqn:Ev; [|simpl; auto].
  destruct (validFiles vr) as [|g gs] eqn:Evf; [simpl; auto|].
  destruct (newImages _ vr 0 (g :: gs) _) as [items st1]. simpl.
  split; [reflexivity|split; [reflexivity|]].
  intros H. specialize (H (x :: xs)). rewrite Ev, Evf in H. discriminate H.
Qed.

Lemma handleFileSelect_releases_lock_witness :
  let st := mkState [] [] false false [] 20 20 in
  (processingQueue st = false /\ [4; 5] <> []) /\
  (let st' := snd (handleFileSelect 10 [4; 5] (fun fs => Some (mkValidationResult fs [] []
                     (fun _ => None) (fun _ => None) (fun _ => None))) st) in
   processingQueue st' = false /\ isProcessing st' = false /\
   ((forall fs, match (fun fs => Some (mkValidationResult fs [] []
                     (fun _ => None) (fun _ => None) (fun _ => None))) fs with
                | None => True | Some vr => validFiles vr = [] end) ->
    st' = set_processing st false)).
Proof.
  intros st. split; [split; [reflexivity|discriminate]|].
  apply handleFileSelect_releases_lock; [reflexivity|discriminate].
Defined.

(** Choosing as featured an id that is not in the list keeps the items
    and their order but leaves no item featured. *)
Theorem setFeaturedImage_absent (imageId : nat) (st : State) :
  ~ In imageId (map id (images st)) ->
  map id (images (setFeaturedImage imageId st)) = map id (images st) /\
  count_featured (images (setFeaturedImage imageId st)) = 0.
Proof.
  intros H. unfold setFeaturedImage, set_images, count_featured; simpl.
  rewrite map_map. simpl. split; [reflexivity|].
  induction (images st) as [|a l IH]; simpl; [reflexivity|].
  simpl in H. destruct (Nat.eqb_spec (id a) imageId) as [E|Ne]; [exfalso; auto|].
  simpl. apply IH. auto.
Qed.

Lemma setFeaturedImage_absent_witness :
  let st := mkState [mkMediaItem 1 11 None true None None None;
                     mkMediaItem 2 12 None false None None None] [] false false [] 20 20 in
  ~ In 3 (map id (images st)) /\
  (map id (images (setFeaturedImage 3 st)) = map id (images st) /\
   count_featured (images (setFeaturedImage 3 st)) = 0).
Proof.
  intros st. assert (H : ~ In 3 (map id (images st))) by (simpl; lia).
  split; [exact H|]. exact (setFeaturedImage_absent 3 st H).
Defined.

(** Removing an id that is not in the list leaves the list as it is;
    an object URL the map still holds for that id is released all the
    same. *)
Theorem removeImage_absent (imageId : nat) (st : State) :
  ~ In imageId (map id (images st)) ->
  images (removeImage imageId st) = images st /\
  revoked (removeImage imageId st) =
    revoked st ++ match ref_get (fileReferences st) imageId with
                  | Some (_, u) => [u] | None => [] end /\
  fileReferences (removeImage imageId st) =
    match ref_get (fileReferences st) imageId with
    | Some _ => ref_delete (fileReferences st) imageId | None => fileReferences st end.
Proof.
  intros H. destruct (MediaProofs.removeImage_fields imageId st) as [Hi _].
  split.
  - rewrite Hi, (MediaProofs.find_absent _ _ H), (MediaProofs.filter_keep_absent _ _ H).
    destruct (images st); reflexivity.
  - unfold removeImage. destruct (ref_get (fileReferences st) imageId) as [[f u]|];
      simpl; rewrite ?app_nil_r; split; reflexivity.
Qed.

Lemma removeImage_absent_witness :
  let st := mkState [mkMediaItem 1 11 None true None None None] [(5, (3, 15))]
              false false [] 20 20 in
  ~ In 5 (map id (images st)) /\
  (images (removeImage 5 st) = images st /\
   revoked (removeImage 5 st) =
     revoked st ++ match ref_get (fileReferences st) 5 with
                   | Some (_, u) => [u] | None => [] end /\
   fileReferences (removeImage 5 st) =
     match ref_get (fileReferences st) 5 with
     | Some _ => ref_delete (fileReferences st) 5 | None => fileReferences st end).
Proof.
  intros st. assert (H : ~ In 5 (map id (images st))) by (simpl; lia).
  split; [exact H|]. exact (removeImage_absent 5 st H).
Defined.

(** Completing a crop for an item no longer in the list changes neither
    the list nor the reference map, and releases no object URL. *)
Theorem handleCropComplete_absent (target : MediaItem) (croppedFile : nat) (st : State) :
  ~ In (id target) (map id (images st)) ->
  let st' := handleCropComplete (Some target) croppedFile st in
  images st' = images st /\ fileReferences st' = fileReferences st /\
  revoked st' = revoked st /\ nextUrl st' = nextUrl st.
Proof.
  intros H. cbv zeta. unfold handleCropComplete. simpl.
  rewrite MediaProofs.cropMap_absent by exact H. simpl. auto.
Qed.

Lemma handleCropComplete_absent_witness :
  let a := mkMediaItem 1 11 None true None None None in
  let st := mkState [mkMediaItem 2 12 (Some 4) true None None None;
                     mkMediaItem 3 13 (Some 5) false None None None]
                    [(1, (3, 11)); (2, (4, 12)); (3, (5, 13))] false false [] 20 20 in
  ~ In (id a) (map id (images st)) /\
  (let st' := handleCropComplete (Some a) 7 st in
   images st' = images st /\ fileReferences st' = fileReferences st /\
   revoked st' = revoked st /\ nextUrl st' = nextUrl st).
Proof.
  intros a st. assert (H : ~ In (id a) (map id (images st))) by (simpl; lia).
  split; [exact H|]. exact (handleCropComplete_absent a 7 st H).
Defined.

End MediaEdgeProofs.

(* ===================================================================== *)
(** * Upload library: reports, compression size, persistence             *)
(* ===================================================================== *)

Module UploadReportProofs.

Import UploadPipeline.
Local Open Scope nat_scope.

Lemma uploadLoop_reports (now total i : nat) (os : list FileOutcome) :
  fst (uploadLoop now total i os) = fileReports total i os.
Proof.
  revert i. induction os as [|o r IH]; intros i; simpl; [reflexivity|].
  specialize (IH (S i)). destruct (uploadLoop now total (S i) r) as [rs' imgs].
  simpl in IH. rewrite <- IH. destruct o; reflexivity.
Qed.

(** [uploadProductImages] gives exactly one report per input file, in
    input order: [onProgress(i + 1, n)] for a file that uploaded, the
    upload-error toast (with the storage message) for a file whose upload
    returned an error, and the processing-error toast for a file whose
    compression or upload threw. The count passed to [onProgress] is the
    file's position, not the number of files uploaded so far. *)
Theorem uploadProductImages_reports (now : nat) (files : list FileOutcome) :
  fst (uploadProductImages now files) = fileReports (length files) 0 files.
Proof.
  unfold uploadProductImages. destruct files as [|o r]; [reflexivity|].
  pose proof (uploadLoop_reports now (length (o :: r)) 0 (o :: r)) as H.
  destruct (uploadLoop now (length (o :: r)) 0 (o :: r)). exact H.
Qed.

End UploadReportProofs.

Module CompressionProofs.

Import ImageCompression.
Local Open Scope Z_scope.

Lemma js_round_bounds (x : Q) (m : Z) :
  (0 <= x)%Q -> (x <= inject_Z m)%Q -> 0 <= TieredPricing.js_round x <= m.
Proof.
  intros H0 Hm. unfold TieredPricing.js_round. split.
  - change 0 with (Qfloor 0). apply Qfloor_resp_le.
    apply (Qle_trans _ x); [exact H0|].
    rewrite <- (Qplus_0_r x) at 1. apply Qplus_le_r. discriminate.
  - assert (H : (inject_Z (Qfloor (x + (1 # 2))) < inject_Z (m + 1))%Q).
    { apply (Qle_lt_trans _ (x + (1 # 2))); [apply Qfloor_le|].
      rewrite inject_Z_plus, Qplus_comm, (Qplus_comm (inject_Z m)).
      apply Qplus_lt_le_compat; [reflexivity|exact Hm]. }
    rewrite <- Zlt_Qlt in H. lia.
Qed.

Lemma scaled_side_bounds (short long m : Z) :
  0 <= short -> short <= long -> 0 < long -> 0 <= m ->
  0 <= TieredPricing.js_round (inject_Z short * inject_Z m / inject_Z long) <= m.
Proof.
  intros Hs Hl Hl0 Hm. apply js_round_bounds.
  - apply Qle_shift_div_l; [unfold Qlt; simpl; lia|].
    rewrite Qmult_0_l, <- inject_Z_mult. unfold Qle; simpl; nia.
  - apply Qle_shift_div_r; [unfold Qlt; simpl; lia|].
    rewrite <- !inject_Z_mult, <- Zle_Qle. nia.
Qed.

(** The canvas [compressImage] draws on: its longer side is the image's
    longer side capped at [maxWidth], its other side is within
    [0 .. maxWidth], and an image that already fits keeps its size. *)
Theorem compressDimensions_bounds (maxWidth width height : Z) :
  0 <= width -> 0 <= height -> 0 <= maxWidth ->
  let (w, h) := compressDimensions maxWidth width height in
  Z.max w h = Z.min (Z.max width height) maxWidth /\ 0 <= w /\ 0 <= h /\
  (Z.max width height <= maxWidth -> w = width /\ h = height).
Proof.
  intros Hw Hh Hm. unfold compressDimensions.
  destruct (Z.ltb_spec height width) as [Hlt|Hge].
  - destruct (Z.ltb_spec maxWidth width) as [Hmw|Hmw]; [|repeat split; lia].
    pose proof (scaled_side_bounds height width maxWidth Hh ltac:(lia) ltac:(lia) Hm) as B.
    repeat split; lia.
  - destruct (Z.ltb_spec maxWidth height) as [Hmh|Hmh]; [|repeat split; lia].
    pose proof (scaled_side_bounds width height maxWidth Hw Hge ltac:(lia) Hm) as B.
    repeat split; lia.
Qed.

Lemma compressDimensions_bounds_witness :
  (0 <= 3000 /\ 0 <= 2000 /\ 0 <= 1200) /\
  let (w, h) := compressDimensions 1200 3000 2000 in
  Z.max w h = Z.min (Z.max 3000 2000) 1200 /\ 0 <= w /\ 0 <= h /\
  (Z.max 3000 2000 <= 1200 -> w = 3000 /\ h = 2000).
Proof.
  split; [lia|]. apply compressDimensions_bounds; lia.
Defined.

(** A very wide image (more than twice [maxWidth] times as wide as it is
    high) gets a canvas of height 0. *)
Theorem compressDimensions_zero_height (maxWidth width height : Z) :
  0 < height -> 0 < maxWidth -> maxWidth < width -> 2 * height * maxWidth < width ->
  snd (compressDimensions maxWidth width height) = 0.
Proof.
  intros Hh Hm Hmw H2. unfold compressDimensions.
  assert (Hlt : height < width) by nia.
  rewrite (proj2 (Z.ltb_lt _ _) Hlt), (proj2 (Z.ltb_lt _ _) Hmw). simpl.
  unfold TieredPricing.js_round.
  assert (Hx : (inject_Z height * inject_Z maxWidth / inject_Z width + (1 # 2) < 1)%Q).
  { apply (Qplus_lt_l _ _ (-(1 # 2))). ring_simplify.
    apply Qlt_shift_div_r; [unfold Qlt; simpl; lia|].
    rewrite <- inject_Z_mult. unfold Qlt, inject_Z; simpl.
    assert (E : match width with 0 => 0 | Z.pos y => Z.pos y | Z.neg y => Z.neg y end = width)
      by (destruct width; reflexivity).
    rewrite E. nia. }
  assert (H0 : (0 <= inject_Z height * inject_Z maxWidth / inject_Z width + (1 # 2))%Q).
  { apply (Qle_trans _ (inject_Z height * inject_Z maxWidth / inject_Z width)).
    - apply Qle_shift_div_l; [unfold Qlt; simpl; lia|].
      rewrite Qmult_0_l, <- inject_Z_mult. unfold Qle; simpl; nia.
    - rewrite <- (Qplus_0_r (_ / _)) at 1. apply Qplus_le_r. discriminate. }
  assert (L : (0 <= Qfloor (inject_Z height * inject_Z maxWidth / inject_Z width + (1 # 2)))%Z)
    by (change 0%Z with (Qfloor 0); apply Qfloor_resp_le, H0).
  assert (U : (inject_Z (Qfloor (inject_Z height * inject_Z maxWidth / inject_Z width + (1 # 2)))
              < inject_Z 1)%Q) by (eapply Qle_lt_trans; [apply Qfloor_le|exact Hx]).
  rewrite <- Zlt_Qlt in U. lia.
Qed.

Lemma compressDimensions_zero_height_witness :
  (0 < 2 /\ 0 < 1200 /\ 1200 < 5000 /\ 2 * 2 * 1200 < 5000) /\
  snd (compressDimensions 1200 5000 2) = 0.
Proof.
  split; [lia|]. apply compressDimensions_zero_height; lia.
Defined.

End CompressionProofs.



Module PricingEdgeProofs.

Import TieredPricing DoubleProofs.
Local Open Scope Q_scope.

Lemma savings_bounds (u d : Q) : 0 < d -> d <= u -> u <= max_double ->
  exists k, calculateSavingsPercentage u d = Finite (inject_Z k) /\ (0 <= k <= 100)%Z.
Proof.
  intros Hd Hdu HuM. assert (Hu : 0 < u) by (apply (Qlt_le_trans _ d); assumption).
  destruct (toDouble_le u max_double (Qlt_le_weak _ _ Hu) HuM max_double_dbl
              max_double_lt)
    as [o [Ho [Ho0 [HoM Hod]]]].
  rewrite toDouble_pos in Ho by exact Hu.
  destruct (round_pos_mono d u o Hd Hdu Ho) as [n [Hn [Hn0 [Hno Hnd]]]].
  assert (Hot : o < pow2 1024) by (apply (Qle_lt_trans _ _ _ HoM max_double_lt)).
  unfold calculateSavingsPercentage.
  rewrite (toDouble_pos u Hu), Ho, (toDouble_pos d Hd), Hn.
  cbn [le_zero]. destruct (Qle_bool o 0) eqn:Eo.
  - exists 0%Z. split; [reflexivity|lia].
  - assert (Ho' : 0 < o).
    { apply Qnot_le_lt. intros C. apply Qle_bool_iff in C. congruence. }
    unfold fsub, fneg. cbn [fadd].
    destruct (toDouble_le (o + - n) o) as [a [Ha [Ha0 [Hao _]]]];
      [Lqa.lra|Lqa.lra|exact Hod|exact Hot|].
    rewrite Ha. cbn [fdiv].
    destruct (Qeq_bool o 0) eqn:Eq0.
    { apply Qeq_bool_iff in Eq0. exfalso. rewrite Eq0 in Ho'. discriminate. }
    destruct (toDouble_le (a / o) 1) as [b [Hb [Hb0 [Hb1 _]]]].
    { apply Qle_shift_div_l; [exact Ho'|]. rewrite Qmult_0_l. exact Ha0. }
    { apply Qle_shift_div_r; [exact Ho'|]. rewrite Qmult_1_l. exact Hao. }
    { exists 1%Z, 0%Z. split; [lia|]. split; [lia|reflexivity]. }
    { exact pow2_0_lt_1024. }
    rewrite Hb. cbn [fmul].
    destruct (toDouble_le (b * 100) 100) as [c [Hc [Hc0 [Hc1 _]]]].
    { Lqa.lra. }
    { Lqa.lra. }
    { exists 100%Z, 0%Z. split; [lia|]. split; [lia|reflexivity]. }
    { apply (Qlt_trans _ (pow2 7)); [reflexivity|apply pow2_lt; lia]. }
    rewrite Hc. cbn [math_round]. exists (js_round c). split; [reflexivity|].
    apply CompressionProofs.js_round_bounds; assumption.
Qed.

(** The discount badge of a tier row: [hasDiscount] holds exactly when
    the tier's discounted price is present, positive and below its unit
    price. When the unit price is at most the largest finite double, the
    [discountPercentage], computed on JavaScript numbers, is then an
    integer within [0 .. 100]; it is 0 for a row without discount. *)
Theorem tierRow_discount_badge (base : Q) (tier : PriceTier) :
  unit_price tier <= max_double ->
  let r := tierRow base tier in
  (hasDiscount r = true <->
   exists d, discounted_unit_price tier = Some d /\ 0 < d /\ d < unit_price tier) /\
  (exists k, discountPercentage r = Finite (inject_Z k) /\ (0 <= k <= 100)%Z) /\
  (hasDiscount r = false -> discountPercentage r = Finite 0).
Proof.
  intros Hmax. cbv zeta. pose proof (PricingProofs.activeDiscount_spec tier) as Ha.
  unfold tierRow; simpl. destruct (activeDiscount tier) as [d|].
  - destruct Ha as [Hd [H0 H1]].
    split; [split; [intros _; exists d; auto|intros _; reflexivity]|].
    split; [|discriminate].
    apply savings_bounds; [exact H0|apply Qlt_le_weak, H1|exact Hmax].
  - split; [split; [discriminate|intros [d [Hd Hlt]]; exfalso; exact (Ha d Hd Hlt)]|].
    split; [exists 0%Z; split; [reflexivity|lia]|reflexivity].
Qed.

Lemma tierRow_discount_badge_witness :
  unit_price (mkPriceTier 1 5 10 (Some 8)) <= max_double /\
  (let r := tierRow 10 (mkPriceTier 1 5 10 (Some 8)) in
   (hasDiscount r = true <->
    exists d, discounted_unit_price (mkPriceTier 1 5 10 (Some 8)) = Some d /\ 0 < d /\
              d < unit_price (mkPriceTier 1 5 10 (Some 8))) /\
   (exists k, discountPercentage r = Finite (inject_Z k) /\ (0 <= k <= 100)%Z) /\
   (hasDiscount r = false -> discountPercentage r = Finite 0)).
Proof.
  assert (H : unit_price (mkPriceTier 1 5 10 (Some 8)) <= max_double)
    by (apply Qle_bool_iff; vm_compute; reflexivity).
  split; [exact H|]. exact (tierRow_discount_badge 10 _ H).
Defined.

End PricingEdgeProofs.

Module PersistenceProofs.

Import Persistence.
Import String.StringSyntax.
Local Open Scope nat_scope.

Lemma imagesToInsert_rows (productId : nat) (imgs : list UploadPipeline.UploadedImage) :
  Forall (fun r => UploadPipeline.is_featured r = Nat.eqb (UploadPipeline.display_order r) 0) imgs ->
  imagesToInsert productId imgs =
    map (fun p => mkImageRow productId (fst p) (Nat.eqb (snd p) 0) (snd p))
        (combine (map UploadPipeline.url imgs) (map UploadPipeline.display_order imgs)).
Proof.
  induction imgs as [|img imgs IH]; intros H; [reflexivity|].
  inversion H as [|x y Hf Hr]; subst. unfold imagesToInsert in *. simpl.
  rewrite Hf, (IH Hr). reflexivity.
Qed.

Lemma uploadProductImages_records (now : nat) (files : list UploadPipeline.FileOutcome) :
  exists imgs, snd (UploadPipeline.uploadProductImages now files) = Ok imgs /\
    map UploadPipeline.display_order imgs = UploadPipeline.successIndices 0 files /\
    map UploadPipeline.url imgs = UploadPipeline.successUrls files /\
    Forall (fun r => UploadPipeline.is_featured r =
                     Nat.eqb (UploadPipeline.display_order r) 0) imgs.
Proof.
  unfold UploadPipeline.uploadProductImages. destruct files as [|o r].
  - exists []. repeat split; constructor.
  - destruct (UploadProofs.uploadLoop_records now (length (o :: r)) 0 (o :: r)) as [H1 [H2 H3]].
    destruct (UploadPipeline.uploadLoop now (length (o :: r)) 0 (o :: r)) as [rs imgs].
    exists imgs. simpl in H1, H2, H3. auto.
Qed.

(** Saving what [uploadProductImages] returned inserts, in one call, one
    row per uploaded file in input order, carrying the product id, the
    public URL, the file's input position as [display_order] and
    [is_featured] exactly for position 0; with no file uploaded nothing
    is written. Unlike the other helpers, a failed insert is logged and
    raised to the caller. *)
Theorem upload_then_save (now productId : nat) (files : list UploadPipeline.FileOutcome)
    (insertOk : bool) :
  exists imgs, snd (UploadPipeline.uploadProductImages now files) = Ok imgs /\
  saveProductImages insertOk productId imgs =
    match UploadPipeline.successIndices 0 files with
    | [] => ([], Ok tt)
    | _ =>
      let rows := map (fun p => mkImageRow productId (fst p) (Nat.eqb (snd p) 0) (snd p))
                      (combine (UploadPipeline.successUrls files)
                               (UploadPipeline.successIndices 0 files)) in
      if insertOk then ([InsertRows rows], Ok tt) else ([InsertRows rows; LogError], Throw)
    end.
Proof.
  destruct (uploadProductImages_records now files) as [imgs [E [H1 [H2 H3]]]].
  exists imgs. split; [exact E|]. rewrite <- H1, <- H2.
  unfold saveProductImages. rewrite (imagesToInsert_rows productId imgs H3).
  destruct imgs as [|img imgs']; [reflexivity|].
  cbv zeta. destruct insertOk; reflexivity.
Qed.

Lemma plannedUpdates_cons (i : nat) (img : StoredImage) (rest : list StoredImage) :
  plannedUpdates i (img :: rest) =
    if String.prefix "new-" (id img) then plannedUpdates (S i) rest
    else (i, UpdateRow (id img) (Nat.eqb i 0) i) :: plannedUpdates (S i) rest.
Proof.
  unfold plannedUpdates. simpl. destruct (String.prefix "new-" (id img)); reflexivity.
Qed.

(** The loop sends the planned updates in order and stops after the
    first one that fails. *)
Lemma updateLoop_planned (updateOk : nat -> bool) (i : nat) (images : list StoredImage) :
  match find (fun c => negb (updateOk (fst c))) (plannedUpdates i images) with
  | None => updateLoop updateOk i images = (map snd (plannedUpdates i images), Ok tt)
  | Some c => exists pre post, plannedUpdates i images = pre ++ c :: post /\
              updateLoop updateOk i images = (map snd pre ++ [snd c], Throw)
  end.
Proof.
  revert i. induction images as [|img rest IH]; intros i; [reflexivity|].
  rewrite plannedUpdates_cons. simpl updateLoop.
  destruct (String.prefix "new-" (id img)); [exact (IH (S i))|].
  simpl find. destruct (updateOk i); simpl negb; cbv iota.
  - specialize (IH (S i)).
    destruct (find (fun c => negb (updateOk (fst c))) (plannedUpdates (S i) rest)) as [c|].
    + destruct IH as [pre [post [E L]]]. rewrite L.
      exists ((i, UpdateRow (id img) (Nat.eqb i 0) i) :: pre), post.
      rewrite E. split; reflexivity.
    + rewrite IH. reflexivity.
  - exists [], (plannedUpdates (S i) rest). split; reflexivity.
Qed.

(** [updateImageOrder] never raises. It sends, in list order, the update
    of every saved image (ids starting with [new-] are skipped) with its
    list position as [display_order] and [is_featured] for position 0,
    until one fails: that failed update is the last one sent, the rest
    of the list is left as it was, and the error is only logged. *)
Theorem updateImageOrder_stops_at_first_error (updateOk : nat -> bool)
    (images : list StoredImage) :
  snd (updateImageOrder updateOk images) = Ok tt /\
  match find (fun c => negb (updateOk (fst c))) (plannedUpdates 0 images) with
  | None => fst (updateImageOrder updateOk images) = map snd (plannedUpdates 0 images)
  | Some c => exists pre post, plannedUpdates 0 images = pre ++ c :: post /\
      fst (updateImageOrder updateOk images) = map snd pre ++ [snd c; LogError]
  end.
Proof.
  pose proof (updateLoop_planned updateOk 0 images) as H. unfold updateImageOrder.
  destruct (find _ (plannedUpdates 0 images)) as [c|].
  - destruct H as [pre [post [E L]]]. rewrite L. split; [reflexivity|].
    exists pre, post. split; [exact E|]. simpl. rewrite <- app_assoc. reflexivity.
  - rewrite H. split; reflexivity.
Qed.

Lemma plannedUpdates_shape (i : nat) (images : list StoredImage) (e : Effect) :
  In e (map snd (plannedUpdates i images)) ->
  exists n img, e = UpdateRow (id img) (Nat.eqb n 0) n /\ i <= n /\
    nth_error images (n - i) = Some img /\ String.prefix "new-" (id img) = false.
Proof.
  revert i. induction images as [|img rest IH]; intros i Hin; [contradiction|].
  rewrite plannedUpdates_cons in Hin.
  destruct (String.prefix "new-" (id img)) eqn:Ep.
  - destruct (IH (S i) Hin) as [n [img' [E [Le [Hn Hp]]]]].
    exists n, img'. split; [exact E|]. split; [lia|]. split; [|exact Hp].
    replace (n - i) with (S (n - S i)) by lia. exact Hn.
  - destruct Hin as [Hin|Hin].
    + exists i, img. rewrite Nat.sub_diag. auto.
    + destruct (IH (S i) Hin) as [n [img' [E [Le [Hn Hp]]]]].
      exists n, img'. split; [exact E|]. split; [lia|]. split; [|exact Hp].
      replace (n - i) with (S (n - S i)) by lia. exact Hn.
Qed.

(** Every update [updateImageOrder] sends concerns a saved image (its id
    does not start with [new-]) at list position [display_order], and
    sets [is_featured] exactly when that position is 0. So when the first
    image of the list is a new one, no saved image is marked featured. *)
Theorem updateImageOrder_featured (updateOk : nat -> bool) (images : list StoredImage)
    (x : String.string) (b : bool) (n : nat) :
  In (UpdateRow x b n) (fst (updateImageOrder updateOk images)) ->
  b = Nat.eqb n 0 /\ String.prefix "new-" x = false /\
  exists img, nth_error images n = Some img /\ id img = x.
Proof.
  intros Hin.
  assert (Hp : In (UpdateRow x b n) (map snd (plannedUpdates 0 images))).
  { pose proof (updateLoop_planned updateOk 0 images) as H. unfold updateImageOrder in Hin.
    destruct (find _ (plannedUpdates 0 images)) as [c|].
    - destruct H as [pre [post [E L]]]. rewrite L in Hin. rewrite E, map_app. simpl in Hin |- *.
      rewrite <- app_assoc in Hin. apply in_app_or in Hin as [Hin|[Hin|[Hin|[]]]].
      + apply in_or_app. left; exact Hin.
      + apply in_or_app. right; left; exact Hin.
      + discriminate Hin.
    - rewrite H in Hin. exact Hin. }
  destruct (plannedUpdates_shape 0 images _ Hp) as [m [img [E [_ [Hn Hpre]]]]].
  injection E as -> -> ->. rewrite Nat.sub_0_r in Hn. split; [reflexivity|].
  split; [exact Hpre|]. exists img. split; [exact Hn|reflexivity].
Qed.

Local Open Scope string_scope.

Lemma updateImageOrder_featured_witness :
  let images := [mkStoredImage "new-1-0" 5 false 0; mkStoredImage "a1" 6 true 1] in
  In (UpdateRow "a1" false 1) (fst (updateImageOrder (fun _ => true) images)) /\
  (false = Nat.eqb 1 0 /\ String.prefix "new-" "a1" = false /\
   exists img, nth_error images 1 = Some img /\ id img = "a1").
Proof.
  intros images. assert (H : In (UpdateRow "a1" false 1) (fst (updateImageOrder (fun _ => true) images)))
    by (simpl; left; reflexivity).
  split; [exact H|]. exact (updateImageOrder_featured (fun _ => true) images "a1" false 1 H).
Defined.

Lemma successIndices_ge (i x : nat) (os : list UploadPipeline.FileOutcome) :
  In x (UploadPipeline.successIndices i os) -> i <= x.
Proof.
  revert i. induction os as [|o r IH]; intros i Hin; [contradiction|].
  destruct o; simpl in Hin;
    try (destruct Hin as [<-|Hin]; [lia|]); specialize (IH (S i) Hin); lia.
Qed.

Lemma successIndices_sorted (i : nat) (os : list UploadPipeline.FileOutcome) :
  Sorted le (UploadPipeline.successIndices i os).
Proof.
  revert i. induction os as [|o r IH]; intros i; [constructor|].
  destruct o; simpl; try exact (IH (S i)).
  constructor; [exact (IH (S i))|].
  pose proof (fun x => successIndices_ge (S i) x r) as G.
  destruct (UploadPipeline.successIndices (S i) r) as [|h t]; constructor.
  specialize (G h (or_introl eq_refl)). lia.
Qed.

Lemma save_applied (newId : nat -> String.string) (table : list TableRow) (productId : nat)
    (imgs : list UploadPipeline.UploadedImage) :
  applyEffects newId table (fst (saveProductImages true productId imgs)) =
  insertRows newId table (imagesToInsert productId imgs).
Proof.
  destruct imgs as [|img imgs]; [|reflexivity].
  unfold insertRows. simpl. symmetry. apply app_nil_r.
Qed.

Lemma filter_other (p : nat) (table : list TableRow) :
  Forall (fun r => t_product_id r <> p) table ->
  filter (fun r => Nat.eqb (t_product_id r) p) table = [].
Proof.
  induction 1 as [|r t Hr _ IH]; [reflexivity|]. simpl.
  rewrite (proj2 (Nat.eqb_neq _ _) Hr). exact IH.
Qed.

Lemma filter_inserted (newId : nat -> String.string) (p k : nat) (rows : list ImageRow) :
  Forall (fun r => product_id r = p) rows ->
  let ins := map (fun q => mkTableRow (newId (fst q)) (product_id (snd q)) (row_url (snd q))
                             (Some (row_is_featured (snd q))) (Some (row_display_order (snd q))))
                 (combine (seq k (length rows)) rows) in
  filter (fun r => Nat.eqb (t_product_id r) p) ins = ins.
Proof.
  revert k. induction rows as [|r rs IH]; intros k H; [reflexivity|].
  inversion H as [|x y Hr Hrs]; subst. simpl.
  rewrite Nat.eqb_refl. f_equal. exact (IH (S k) Hrs).
Qed.

Lemma sort_inserted (newId : nat -> String.string) (k : nat) (rows : list ImageRow) :
  Sorted le (map row_display_order rows) ->
  let ins := map (fun q => mkTableRow (newId (fst q)) (product_id (snd q)) (row_url (snd q))
                             (Some (row_is_featured (snd q))) (Some (row_display_order (snd q))))
                 (combine (seq k (length rows)) rows) in
  sortByOrder ins = ins.
Proof.
  revert k. induction rows as [|r rs IH]; intros k H; [reflexivity|].
  simpl in H. apply Sorted_inv in H as [Hs Hd]. cbv zeta in IH |- *.
  simpl (seq _ _). simpl combine. simpl map. simpl sortByOrder.
  rewrite (IH (S k) Hs).
  destruct rs as [|r2 rs']; [reflexivity|].
  simpl in Hd. apply HdRel_inv in Hd.
  simpl (seq _ _). simpl combine. simpl map. simpl insert_row.
  apply Nat.leb_le in Hd. simpl. rewrite Hd. reflexivity.
Qed.

Lemma combine_seq_map {B : Type} (h : ImageRow -> B) (k : nat) (rows : list ImageRow) :
  map (fun q => h (snd q)) (combine (seq k (length rows)) rows) = map h rows.
Proof.
  revert k. induction rows as [|r rs IH]; intros k; [reflexivity|].
  simpl. f_equal. apply IH.
Qed.

Lemma fetch_after_insert (newId : nat -> String.string) (table : list TableRow) (p : nat)
    (rows : list ImageRow) :
  Forall (fun r => t_product_id r <> p) table ->
  Forall (fun r => product_id r = p) rows ->
  Sorted le (map row_display_order rows) ->
  fetchProductImages (Some (selectImages (insertRows newId table rows) p)) =
  map (fun q => mkStoredImage (newId (fst q)) (row_url (snd q)) (row_is_featured (snd q))
                  (row_display_order (snd q)))
      (combine (seq (length table) (length rows)) rows).
Proof.
  intros Ht Hr Hs. unfold selectImages, insertRows.
  rewrite filter_app, (filter_other p table Ht), app_nil_l.
  rewrite (filter_inserted newId p (length table) rows Hr).
  rewrite (sort_inserted newId (length table) rows Hs).
  unfold fetchProductImages. rewrite !map_map. reflexivity.
Qed.

(** Round trip of the persistence helpers: after the upload, saving the
    uploaded images (insert succeeding) into a table that held no image
    of the product and fetching the product's images back yields one
    image per uploaded file, in input order, with the file's URL, its
    input position as [display_order] and [is_featured] exactly for
    position 0. *)
Theorem upload_save_fetch (now productId : nat) (files : list UploadPipeline.FileOutcome)
    (newId : nat -> String.string) (table : list TableRow) :
  Forall (fun r => t_product_id r <> productId) table ->
  exists imgs, snd (UploadPipeline.uploadProductImages now files) = Ok imgs /\
  let fetched := fetchProductImages (Some (selectImages
                   (applyEffects newId table (fst (saveProductImages true productId imgs)))
                   productId)) in
  map url fetched = UploadPipeline.successUrls files /\
  map display_order fetched = UploadPipeline.successIndices 0 files /\
  map is_featured fetched = map (fun i => Nat.eqb i 0) (UploadPipeline.successIndices 0 files).
Proof.
  intros Ht.
  destruct (uploadProductImages_records now files) as [imgs [E [H1 [H2 H3]]]].
  exists imgs. split; [exact E|]. cbv zeta.
  rewrite save_applied.
  assert (Hr : Forall (fun r => product_id r = productId) (imagesToInsert productId imgs)).
  { unfold imagesToInsert. apply Forall_map. apply Forall_forall. reflexivity. }
  assert (Hd : map row_display_order (imagesToInsert productId imgs)
               = map UploadPipeline.display_order imgs).
  { unfold imagesToInsert. rewrite map_map. reflexivity. }
  assert (Hs : Sorted le (map row_display_order (imagesToInsert productId imgs))).
  { rewrite Hd, H1. apply successIndices_sorted. }
  rewrite (fetch_after_insert newId table productId _ Ht Hr Hs).
  rewrite <- H1, <- H2. rewrite !map_map.
  split; [|split].
  - rewrite (combine_seq_map row_url). unfold imagesToInsert. rewrite map_map. reflexivity.
  - rewrite (combine_seq_map row_display_order). exact Hd.
  - rewrite (combine_seq_map row_is_featured). unfold imagesToInsert. rewrite !map_map.
    apply map_ext_Forall. exact H3.
Qed.

Lemma upload_save_fetch_witness :
  Forall (fun r => t_product_id r <> 7) [mkTableRow "x" 3 40 (Some true) (Some 0)] /\
  exists imgs, snd (UploadPipeline.uploadProductImages 0
                  [UploadPipeline.UploadSucceeds 11; UploadPipeline.UploadThrows;
                   UploadPipeline.UploadSucceeds 12]) = Ok imgs /\
  let fetched := fetchProductImages (Some (selectImages
                   (applyEffects (fun n => "row") [mkTableRow "x" 3 40 (Some true) (Some 0)]
                      (fst (saveProductImages true 7 imgs))) 7)) in
  map url fetched = UploadPipeline.successUrls
                      [UploadPipeline.UploadSucceeds 11; UploadPipeline.UploadThrows;
                       UploadPipeline.UploadSucceeds 12] /\
  map display_order fetched = UploadPipeline.successIndices 0
                      [UploadPipeline.UploadSucceeds 11; UploadPipeline.UploadThrows;
                       UploadPipeline.UploadSucceeds 12] /\
  map is_featured fetched = map (fun i => Nat.eqb i 0) (UploadPipeline.successIndices 0
                      [UploadPipeline.UploadSucceeds 11; UploadPipeline.UploadThrows;
                       UploadPipeline.UploadSucceeds 12]).
Proof.
  assert (H : Forall (fun r => t_product_id r <> 7) [mkTableRow "x" 3 40 (Some true) (Some 0)])
    by (constructor; [simpl; lia|constructor]).
  split; [exact H|]. exact (upload_save_fetch 0 7 _ (fun n => "row") _ H).
Defined.

End PersistenceProofs.
